(** * VoxMatrix icon generator: a shallow embedding of [generate_icon.py]

    The script renders a square RGBA icon (radial gradient disc, grid overlay,
    a "V" glyph with a glow, rounded-corner alpha mask) and writes it at five
    Android densities.

    Modelling conventions.
    - Python integers are [Z]; [//] on a positive divisor is [Z.div].
    - An exception is a value of [exn]; a computation that may raise returns
      [result].
    - [int(size * c)] for a decimal literal [c] is computed as CPython does:
      the binary64 product, rounded to nearest-even, then truncated
      (module [F64]).
    - The gradient arithmetic ([math.sqrt], [/], [*], [+], [int]) is carried
      out exactly, on numbers of the form (p + c*sqrt d)/q (module [Exact]);
      module [Binary64] evaluates the same expressions with the kernel's
      binary64 floats and the two are shown to agree on every size of
      [ICON_SIZES].
    - Pillow's pixel semantics (new, putpixel, drawing on an RGBA image,
      putalpha) are written out in module [PIL]; which pixels a stroke or a
      rounded rectangle covers is left to a [Rasterizer], over which the
      renderer is parametric.
    - The driver's effects (print, [os.makedirs], [save]) are recorded in
      order as a trace; module [OS] runs a trace on a file system of
      directories and regular files, where [os.makedirs] makes every missing
      directory on the way down to its path and a file is opened through
      the directories above it. *)

From Stdlib Require Import ZArith Lia Bool.
From Stdlib Require Import Floats.PrimFloat Floats.FloatOps Floats.SpecFloat.
From Stdlib Require Import Numbers.Cyclic.Int63.Uint63.
From stdpp Require Import base list strings gmap pretty.

#[local] Open Scope Z_scope.
#[local] Set Warnings "-inexact-float,-clear-no-such-hyp".

(** ** Python control flow *)

Module Py.

Inductive exn : Set :=
| ZeroDivisionError
| ValueError
| IndexError
| FileExistsError
| FileNotFoundError
| NotADirectoryError
| IsADirectoryError.

Inductive result (A : Type) : Type :=
| Ok (a : A)
| Raise (e : exn).
Arguments Ok {A} a.
Arguments Raise {A} e.

#[export] Instance result_ret : MRet result := @Ok.
#[export] Instance result_bind : MBind result :=
  fun A B f m => match m with Ok a => f a | Raise e => Raise e end.

(** [for x in xs: body], threading the mutated object [s]; an exception
    leaves the loop. *)
Fixpoint for_ {A S : Type} (xs : list A) (body : A -> S -> result S) (s : S)
  : result S :=
  match xs with
  | [] => Ok s
  | x :: xs' => s' ← body x s; for_ xs' body s'
  end.

(** [range(n)] *)
Definition range (n : Z) : list Z := seqZ 0 n.

(** [range(start, stop, step)] for a positive [step]. *)
Definition range3 (start stop step : Z) : list Z :=
  (fun k => start + k * step) <$> seqZ 0 ((stop - start + step - 1) / step).

End Py.
Export Py.

(** ** Products of an integer by a binary64 constant *)

Module F64.

(** [n / 2^k] rounded to the nearest integer, ties to even. *)
Definition rne (n k : Z) : Z :=
  let q := n / 2 ^ k in
  let r := n mod 2 ^ k in
  if 2 * r <? 2 ^ k then q
  else if 2 ^ k <? 2 * r then q + 1
  else if Z.even q then q else q + 1.

(** A non-negative integer rounded to 53 significant bits: the integer
    value of the binary64 number nearest to [n]. *)
Definition round53 (n : Z) : Z :=
  let k := Z.log2 n - 52 in
  if k <=? 0 then n else rne n k * 2 ^ k.

(** A positive binary64 constant [mant * 2^expo]. *)
Record const : Set := Const { mant : Z; expo : Z }.

Definition c_0_1  : const := Const 3602879701896397 (-55).
Definition c_0_25 : const := Const 1 (-2).
Definition c_0_35 : const := Const 6305039478318694 (-54).
Definition c_0_65 : const := Const 5854679515581645 (-53).
Definition c_0_75 : const := Const 3 (-2).

(** [int(n * c)] for [0 <= n]: [n] is converted to binary64, multiplied by
    [c] with one rounding, and the product is truncated. *)
Definition int_mul (n : Z) (c : const) : Z :=
  let p := round53 (round53 n * mant c) in
  if 0 <=? expo c then p * 2 ^ expo c else p / 2 ^ (- expo c).

End F64.

(** ** Exact arithmetic on (p + c * sqrt d) / q *)

Module Exact.

(** The real number [(p + c * sqrt d) / q], with [0 <= d] and [0 < q]. *)
Record num : Set := Num { np : Z; nc : Z; nd : Z; nq : Z }.

(** [math.sqrt(d)] *)
Definition sqrt (d : Z) : num := Num 0 1 d 1.

(** The least [n] with [a <= n * n], for [0 <= a]. *)
Definition sqrt_up (a : Z) : Z :=
  let s := Z.sqrt a in if s * s =? a then s else s + 1.

(** floor and ceiling of [c * sqrt d] *)
Definition floor_surd (c d : Z) : Z :=
  if 0 <=? c then Z.sqrt (c * c * d) else - sqrt_up (c * c * d).
Definition ceil_surd (c d : Z) : Z :=
  if 0 <=? c then sqrt_up (c * c * d) else - Z.sqrt (c * c * d).

(** floor and ceiling of the numerator [p + c * sqrt d] *)
Definition floor_numer (v : num) : Z := np v + floor_surd (nc v) (nd v).
Definition ceil_numer (v : num) : Z := np v + ceil_surd (nc v) (nd v).

(** [v <= k] for an integer [k] *)
Definition leb (v : num) (k : Z) : bool := ceil_numer v <=? k * nq v.

(** [v / k] for an integer [k]; Python raises on [k = 0]. *)
Definition div (v : num) (k : Z) : result num :=
  if k =? 0 then Raise ZeroDivisionError
  else if 0 <? k then Ok (Num (np v) (nc v) (nd v) (nq v * k))
  else Ok (Num (- np v) (- nc v) (nd v) (nq v * - k)).

(** [k * v] and [k + v] for an integer [k] *)
Definition mul (k : Z) (v : num) : num := Num (k * np v) (k * nc v) (nd v) (nq v).
Definition add (k : Z) (v : num) : num := Num (np v + k * nq v) (nc v) (nd v) (nq v).

(** [k - v] for an integer [k] *)
Definition sub (k : Z) (v : num) : num := add k (mul (-1) v).

(** [int(v)]: truncation toward zero *)
Definition int (v : num) : Z :=
  if 0 <=? floor_numer v then floor_numer v / nq v
  else - ((- ceil_numer v) / nq v).

End Exact.

(** ** Pillow: images, drawing contexts, alpha bands *)

Module PIL.

(** A pixel of an ['RGBA'] image. *)
Record rgba : Set := RGBA { red : Z; green : Z; blue : Z; alpha : Z }.

(** An image: its pixel buffer in row-major order. [A] is [rgba] for mode
    ['RGBA'] and [Z] for mode ['L']. *)
Record Image (A : Type) : Type :=
  MkImage { width : Z; height : Z; data : list A }.
Arguments MkImage {A} width height data.
Arguments width {A} i.
Arguments height {A} i.
Arguments data {A} i.

(** [Image.new(mode, (w, h), fill)] *)
Definition new {A : Type} (w h : Z) (fill : A) : result (Image A) :=
  if (w <? 0) || (h <? 0) then Raise ValueError
  else Ok (MkImage w h (replicate (Z.to_nat (w * h)) fill)).

Definition in_image {A : Type} (img : Image A) (xy : Z * Z) : bool :=
  (0 <=? xy.1) && (xy.1 <? width img) && (0 <=? xy.2) && (xy.2 <? height img).

(** Position of pixel [(x, y)] in the buffer, and back. *)
Definition offset {A : Type} (img : Image A) (xy : Z * Z) : nat :=
  Z.to_nat (xy.2 * width img + xy.1).
Definition coords {A : Type} (img : Image A) (k : nat) : Z * Z :=
  (Z.of_nat k mod width img, Z.of_nat k / width img).

(** Negative coordinates count from the far edge, as in Python indexing. *)
Definition wrap {A : Type} (img : Image A) (xy : Z * Z) : Z * Z :=
  (if xy.1 <? 0 then width img + xy.1 else xy.1,
   if xy.2 <? 0 then height img + xy.2 else xy.2).

(** [img.getpixel(xy)] *)
Definition getpixel {A : Type} (img : Image A) (xy : Z * Z) : result A :=
  let xy := wrap img xy in
  if in_image img xy then
    match data img !! offset img xy with
    | Some p => Ok p
    | None => Raise IndexError
    end
  else Raise IndexError.

(** [img.putpixel(xy, value)] *)
Definition putpixel {A : Type} (img : Image A) (xy : Z * Z) (value : A)
  : result (Image A) :=
  let xy := wrap img xy in
  if in_image img xy then
    Ok (MkImage (width img) (height img) (<[offset img xy := value]> (data img)))
  else Raise IndexError.

(** What Pillow's rasterizers decide: the pixels covered by
    [draw.line([p, q], width=w)] and by
    [draw.rounded_rectangle(box, radius=r)]. *)
Record Rasterizer : Type := MkRasterizer {
  line_px : Z * Z -> Z * Z -> Z -> Z * Z -> bool;
  rounded_rectangle_px : Z * Z * Z * Z -> Z -> Z * Z -> bool
}.

(** A drawing context made by [ImageDraw.Draw(img)] has the image's own mode,
    so it does not blend: every covered pixel of the image is overwritten
    with the ink, all four bands of it. *)
Definition paint {A : Type} (img : Image A) (covered : Z * Z -> bool) (ink : A)
  : Image A :=
  MkImage (width img) (height img)
    (imap (fun k old => if covered (coords img k) then ink else old) (data img)).

(** [draw.line([p, q], fill=ink, width=w)] *)
Definition draw_line {A : Type} (R : Rasterizer) (img : Image A)
    (p q : Z * Z) (ink : A) (w : Z) : Image A :=
  paint img (line_px R p q w) ink.

(** [draw.rounded_rectangle(box, radius=r, fill=ink)] *)
Definition draw_rounded_rectangle {A : Type} (R : Rasterizer) (img : Image A)
    (box : Z * Z * Z * Z) (r : Z) (ink : A) : Image A :=
  paint img (rounded_rectangle_px R box r) ink.

(** [img.putalpha(mask)] for an ['L'] mask: the alpha band of [img] is
    replaced by the mask. *)
Definition putalpha (img : Image rgba) (mask : Image Z) : result (Image rgba) :=
  if (width img =? width mask) && (height img =? height mask) then
    Ok (MkImage (width img) (height img)
          (zip_with (fun p a => RGBA (red p) (green p) (blue p) a)
             (data img) (data mask)))
  else Raise ValueError.

End PIL.
Export PIL.

(** ** The script *)

(** [ICON_SIZES]: a dict literal, iterated in insertion order. *)
Definition ICON_SIZES : list (string * Z) :=
  [("mdpi", 48); ("hdpi", 72); ("xhdpi", 96); ("xxhdpi", 144); ("xxxhdpi", 192)].

Definition padding (size : Z) : Z := F64.int_mul size F64.c_0_1.
Definition icon_size (size : Z) : Z := size - padding size * 2.
Definition center (size : Z) : Z := size / 2.
Definition radius (size : Z) : Z := icon_size size / 2.

(** Lines 42-46: the colour of a pixel at distance [dist] from the centre. *)
Definition gradient_color (dist : Exact.num) (radius : Z) : result rgba :=
  ratio ← Exact.div dist radius;
  let r := Exact.int (Exact.add 100 (Exact.mul (138 - 100) ratio)) in
  let g := Exact.int (Exact.add 150 (Exact.mul (43 - 150) ratio)) in
  let b := Exact.int (Exact.sub 255 (Exact.mul 60 ratio)) in
  Ok (RGBA r g b 255).

(** Lines 39-46: the body of the two pixel loops. *)
Definition gradient_pixel (size y x : Z) (img : Image rgba) : result (Image rgba) :=
  let dist := Exact.sqrt ((x - center size) ^ 2 + (y - center size) ^ 2) in
  if Exact.leb dist (radius size) then
    c ← gradient_color dist (radius size);
    putpixel img (x, y) c
  else Ok img.

(** Lines 36-46. *)
Definition draw_gradient (size : Z) (img : Image rgba) : result (Image rgba) :=
  for_ (range size) (fun y => for_ (range size) (fun x => gradient_pixel size y x)) img.

Definition grid_color : rgba := RGBA 255 255 255 30.
Definition grid_spacing (size : Z) : Z := Z.max 4 (size / 16).

Definition v_color : rgba := RGBA 255 255 255 255.
Definition v_thickness (size : Z) : Z := Z.max 2 (size / 12).
Definition v_top_y (size : Z) : Z := F64.int_mul size F64.c_0_25.
Definition v_bottom_y (size : Z) : Z := F64.int_mul size F64.c_0_75.
Definition v_left_x (size : Z) : Z := F64.int_mul size F64.c_0_35.
Definition v_right_x (size : Z) : Z := F64.int_mul size F64.c_0_65.
Definition v_center_x (size : Z) : Z := size / 2.

Definition glow_color : rgba := RGBA 100 200 255 100.
Definition glow_thickness (size : Z) : Z := v_thickness size + 4.

Definition corner_radius (size : Z) : Z := size / 8.

Section Renderer.

Context (R : Rasterizer).

(** Lines 52-56: one vertical and one horizontal line per grid step. *)
Definition grid_step (size : Z) (img : Image rgba) (i : Z) : Image rgba :=
  let img :=
    draw_line R img (i, padding size) (i, size - padding size) grid_color 1 in
  draw_line R img (padding size, i) (size - padding size, i) grid_color 1.

Definition draw_grid (size : Z) (img : Image rgba) : Image rgba :=
  foldl (grid_step size) img
    (range3 (padding size) (size - padding size) (grid_spacing size)).

(** Lines 71-75 and 80-83: the two strokes of the V, in a given ink and
    width. *)
Definition draw_v (size : Z) (ink : rgba) (w : Z) (img : Image rgba) : Image rgba :=
  let img :=
    draw_line R img (v_left_x size, v_top_y size)
      (v_center_x size, v_bottom_y size) ink w in
  draw_line R img (v_right_x size, v_top_y size)
    (v_center_x size, v_bottom_y size) ink w.

Definition draw_glyph (size : Z) : Image rgba -> Image rgba :=
  draw_v size v_color (v_thickness size).
Definition draw_glow (size : Z) : Image rgba -> Image rgba :=
  draw_v size glow_color (glow_thickness size).

(** Lines 24-46: the image right after the gradient loops. *)
Definition after_gradient (size : Z) : result (Image rgba) :=
  img ← new size size (RGBA 0 0 0 0);
  draw_gradient size img.

(** Lines 24-83: the image right before the mask is applied. *)
Definition before_mask (size : Z) : result (Image rgba) :=
  img ← after_gradient size;
  Ok (draw_glow size (draw_glyph size (draw_grid size img))).

(** Lines 86-89. *)
Definition rounded_mask (size : Z) : result (Image Z) :=
  mask ← new size size 0;
  Ok (draw_rounded_rectangle R mask (0, 0, size, size) (corner_radius size) 255).

(** [create_voxmatrix_icon(size)] *)
Definition create_voxmatrix_icon (size : Z) : result (Image rgba) :=
  img ← before_mask size;
  mask ← rounded_mask size;
  putalpha img mask.

End Renderer.

(** ** The batch driver and its effects *)

Module OS.

(** What the driver does to the outside world, in order. *)
Inductive event : Type :=
| Print (line : string)
| MakeDirs (path : string) (exist_ok : bool)
| Save (path : string) (format : string) (img : Image rgba).

(** A run: the effects performed, and how it ended. *)
Definition io (A : Type) : Type := list event * result A.

Definition io_ret {A : Type} (a : A) : io A := ([], Ok a).
Definition io_bind {A B : Type} (m : io A) (f : A -> io B) : io B :=
  match m with
  | (tr, Ok a) => let '(tr', r) := f a in (tr ++ tr', r)
  | (tr, Raise e) => (tr, Raise e)
  end.
Definition perform (e : event) : io unit := ([e], Ok tt).
Definition lift {A : Type} (r : result A) : io A := ([], r).

Fixpoint io_for {A : Type} (xs : list A) (body : A -> io unit) : io unit :=
  match xs with
  | [] => io_ret tt
  | x :: xs' => io_bind (body x) (fun _ => io_for xs' body)
  end.

(** [os.path.join(a, b)] for a relative [b] and an [a] without trailing
    slash. *)
Definition path_join (a b : string) : string := a +:+ "/" +:+ b.

Definition slash : Ascii.ascii := Ascii.ascii_of_nat 47.

(** [os.path.dirname(p)]; [None] stands for a path without a slash, and the
    empty path for the root. *)
Fixpoint dirname (p : string) : option string :=
  match p with
  | EmptyString => None
  | String c p' =>
      match dirname p' with
      | Some d => Some (String c d)
      | None => if Ascii.eqb c slash then Some EmptyString else None
      end
  end.

(** The directories above [p], nearest first, the root left out:
    [os.path.dirname] iterated. The root is the empty path. *)
Fixpoint parents_ (fuel : nat) (p : string) : list string :=
  match fuel with
  | O => []
  | S fuel' =>
      match dirname p with
      | Some (String c d) => String c d :: parents_ fuel' (String c d)
      | _ => []
      end
  end.

Definition parents (p : string) : list string := parents_ (String.length p) p.

(** A file system: the directories and the regular files below the root,
    by path, a file with its format and image. The root is always there.
    Permissions, links and other processes are left out. *)
Record FS : Type := MkFS {
  dirs : gset string;
  files : gmap string (string * Image rgba)
}.

Definition empty_fs : FS := MkFS ∅ ∅.

Definition is_file (fs : FS) (p : string) : bool :=
  bool_decide (is_Some (files fs !! p)).
Definition is_dir (fs : FS) (p : string) : bool := bool_decide (p ∈ dirs fs).

(** [os.makedirs(p, exist_ok)], going down [chain], the directories from
    the topmost one to [p] itself: each missing directory is made; a regular
    file above [p] raises NotADirectoryError; [p] itself raises
    FileExistsError if it is a regular file, or a directory when [exist_ok]
    is false. *)
Fixpoint makedirs_down (chain : list string) (exist_ok : bool) (fs : FS)
  : result FS :=
  match chain with
  | [] => Ok fs
  | c :: rest =>
      match rest with
      | [] =>
          if is_file fs c then Raise FileExistsError
          else if is_dir fs c then
            (if exist_ok then Ok fs else Raise FileExistsError)
          else Ok (MkFS ({[c]} ∪ dirs fs) (files fs))
      | _ :: _ =>
          if is_file fs c then Raise NotADirectoryError
          else makedirs_down rest exist_ok
                 (if is_dir fs c then fs else MkFS ({[c]} ∪ dirs fs) (files fs))
      end
  end.

Definition makedirs (fs : FS) (p : string) (exist_ok : bool) : result FS :=
  makedirs_down (reverse (parents p) ++ [p]) exist_ok fs.

(** Reaching a path goes down the directories above it, topmost first: a
    regular file among them raises NotADirectoryError, a missing one
    FileNotFoundError. *)
Fixpoint walk (chain : list string) (fs : FS) : result unit :=
  match chain with
  | [] => Ok tt
  | c :: rest =>
      if is_file fs c then Raise NotADirectoryError
      else if is_dir fs c then walk rest fs
      else Raise FileNotFoundError
  end.

(** [img.save(p, fmt)]: [p] is opened for writing, which fails on a
    directory, and the file is created or overwritten. *)
Definition save (fs : FS) (p fmt : string) (img : Image rgba) : result FS :=
  walk (reverse (parents p)) fs ≫= fun _ =>
  if is_dir fs p then Raise IsADirectoryError
  else Ok (MkFS (dirs fs) (<[p := (fmt, img)]> (files fs))).

(** The effect of one event on the file system. *)
Definition exec (fs : FS) (e : event) : result FS :=
  match e with
  | Print _ => Ok fs
  | MakeDirs p exist_ok => makedirs fs p exist_ok
  | Save p fmt img => save fs p fmt img
  end.

Definition run (tr : list event) (fs : FS) : result FS :=
  for_ tr (fun e fs => exec fs e) fs.

End OS.
Export OS.

Definition newline : string := String (Ascii.ascii_of_nat 10) EmptyString.

Definition base_path : string :=
  "/home/xaf/Desktop/VoxMatrix/app/android/app/src/main/res".

Section Driver.

Context (R : Rasterizer).

(** Lines 104-114: the body of the loop over [ICON_SIZES.items()]. *)
Definition main_entry (entry : string * Z) : io unit :=
  let '(folder, size) := entry in
  io_bind (lift (create_voxmatrix_icon R size)) (fun icon =>
  let mipmap_path := path_join base_path ("mipmap-" +:+ folder) in
  io_bind (perform (MakeDirs mipmap_path true)) (fun _ =>
  let output_path := path_join mipmap_path "ic_launcher.png" in
  io_bind (perform (Save output_path "PNG" icon)) (fun _ =>
  perform (Print ("Created " +:+ folder +:+ " icon (" +:+ pretty size +:+ "x"
                  +:+ pretty size +:+ "): " +:+ output_path))))).

(** [main()] *)
Definition main : io unit :=
  io_bind (perform (Print "Generating VoxMatrix app icons...")) (fun _ =>
  io_bind (io_for ICON_SIZES main_entry) (fun _ =>
  io_bind (perform (Print (newline +:+ "Icon generation complete!"))) (fun _ =>
  perform (Print "Icons saved to: app/android/app/src/main/res/mipmap-*/")))).

End Driver.

(** ** A reference rasterizer *)

Module Ideal.

(** A stroke of width [w] from [p] to [q] with butt ends: the pixels that
    project onto the segment and lie within [w/2] of its line. For an
    axis-parallel stroke of width 1 these are the pixels of the segment. *)
Definition line_px (p q : Z * Z) (w : Z) (a : Z * Z) : bool :=
  let w := Z.max 1 w in
  let dx := q.1 - p.1 in
  let dy := q.2 - p.2 in
  let len2 := dx * dx + dy * dy in
  let dot := (a.1 - p.1) * dx + (a.2 - p.2) * dy in
  let cross := (a.1 - p.1) * dy - (a.2 - p.2) * dx in
  if len2 =? 0 then (a.1 =? p.1) && (a.2 =? p.2)
  else (0 <=? dot) && (dot <=? len2) && (4 * (cross * cross) <=? w * w * len2).

(** A rounded rectangle: the pixels within [r] of the box shrunk by [r]. *)
Definition rounded_rectangle_px (box : Z * Z * Z * Z) (r : Z) (a : Z * Z) : bool :=
  let '(x0, y0, x1, y1) := box in
  let nx := Z.max (x0 + r) (Z.min a.1 (x1 - r)) in
  let ny := Z.max (y0 + r) (Z.min a.2 (y1 - r)) in
  (a.1 - nx) ^ 2 + (a.2 - ny) ^ 2 <=? r * r.

Definition rasterizer : Rasterizer := MkRasterizer line_px rounded_rectangle_px.

End Ideal.

(** ** The float expressions in binary64 *)

Module Binary64.

#[local] Open Scope float_scope.

(** An integer as a float (exact below 2^53). *)
Definition of_int (n : Z) : float :=
  if (n <? 0)%Z then - of_uint63 (Uint63.of_Z (- n)) else of_uint63 (Uint63.of_Z n).

(** [int(f)] for a finite [f]. *)
Definition int (f : float) : Z :=
  match Prim2SF f with
  | S754_finite s m e =>
      let v := if (0 <=? e)%Z then (Z.pos m * 2 ^ e)%Z else (Z.pos m / 2 ^ (- e))%Z in
      if s then (- v)%Z else v
  | _ => 0%Z
  end.

Definition padding (size : Z) : Z := int (of_int size * 0.1).
Definition v_top_y (size : Z) : Z := int (of_int size * 0.25).
Definition v_bottom_y (size : Z) : Z := int (of_int size * 0.75).
Definition v_left_x (size : Z) : Z := int (of_int size * 0.35).
Definition v_right_x (size : Z) : Z := int (of_int size * 0.65).

(** Lines 39-45 for a pixel at squared distance [d2] from the centre and a
    positive [radius]: [None] when the pixel is left alone. *)
Definition gradient_rgb (d2 radius : Z) : option (Z * Z * Z) :=
  let dist := PrimFloat.sqrt (of_int d2) in
  if dist <=? of_int radius then
    let ratio := dist / of_int radius in
    Some (int (of_int 100 + of_int (138 - 100) * ratio),
          int (of_int 150 + of_int (43 - 150) * ratio),
          int (of_int 255 - of_int 60 * ratio))
  else None.

End Binary64.

(** The same, from the exact model. *)
Definition gradient_rgb (d2 radius : Z) : option (Z * Z * Z) :=
  let dist := Exact.sqrt d2 in
  if Exact.leb dist radius then
    match gradient_color dist radius with
    | Ok c => Some (red c, green c, blue c)
    | Raise _ => None
    end
  else None.

(** Agreement of the two readings for one image size: the five scaled
    lengths, and the gradient at every squared distance [dx^2 + dy^2] with
    [0 <= dx <= dy <= center], which are those of the pixels of the image. *)
Definition binary64_agrees (size : Z) : bool :=
  (Binary64.padding size =? padding size)
  && (Binary64.v_top_y size =? v_top_y size)
  && (Binary64.v_bottom_y size =? v_bottom_y size)
  && (Binary64.v_left_x size =? v_left_x size)
  && (Binary64.v_right_x size =? v_right_x size)
  && forallb (fun dy => forallb (fun dx =>
        bool_decide (Binary64.gradient_rgb (dx ^ 2 + dy ^ 2) (radius size)
                     = gradient_rgb (dx ^ 2 + dy ^ 2) (radius size)))
       (seqZ 0 (dy + 1))) (seqZ 0 (center size + 1)).

(** [int(n * f)] in binary64 against [F64.int_mul n c]. *)
Definition int_mul_binary64 (c : F64.const) (f : float) (n : Z) : bool :=
  Binary64.int (PrimFloat.mul (Binary64.of_int n) f) =? F64.int_mul n c.

Definition int_mul_checks (n : Z) : bool :=
  int_mul_binary64 F64.c_0_1 0.1 n && int_mul_binary64 F64.c_0_25 0.25 n
  && int_mul_binary64 F64.c_0_35 0.35 n && int_mul_binary64 F64.c_0_65 0.65 n
  && int_mul_binary64 F64.c_0_75 0.75 n.

(** ** Vocabulary of the statements *)

(** An image whose buffer has one entry per pixel. *)
Definition wf {A : Type} (img : Image A) : Prop :=
  0 <= width img /\ 0 <= height img /\
  length (data img) = Z.to_nat (width img * height img).

(** A pixel position of the image. *)
Definition inside {A : Type} (img : Image A) (xy : Z * Z) : Prop :=
  0 <= xy.1 < width img /\ 0 <= xy.2 < height img.

(** One step of a pixel loop: write [sel xy] at [xy], if there is one. *)
Definition put_if {A : Type} (sel : Z * Z -> option A) (xy : Z * Z) (img : Image A)
  : result (Image A) :=
  match sel xy with
  | Some c => putpixel img xy c
  | None => Ok img
  end.

(** Squared distance of a pixel from (center, center). *)
Definition dist2 (size : Z) (xy : Z * Z) : Z :=
  (xy.1 - center size) ^ 2 + (xy.2 - center size) ^ 2.

(** What lines 39-46 write at a pixel: nothing outside the disc. *)
Definition gradient_at (size : Z) (xy : Z * Z) : option rgba :=
  let dist := Exact.sqrt (dist2 size xy) in
  if Exact.leb dist (radius size) then
    match gradient_color dist (radius size) with
    | Ok c => Some c
    | Raise _ => None
    end
  else None.

(** The pixels under the grid, under the two strokes of the V at a given
    width, and inside the rounded rectangle of the mask; and the colour the
    drawing steps leave at a pixel, the last stroke painted winning. *)
Section Coverage.
Context (R : Rasterizer).

Definition on_grid_line (size i : Z) (xy : Z * Z) : bool :=
  line_px R (i, padding size) (i, size - padding size) 1 xy
  || line_px R (padding size, i) (size - padding size, i) 1 xy.

Definition on_grid (size : Z) (xy : Z * Z) : bool :=
  existsb (fun i => on_grid_line size i xy)
    (range3 (padding size) (size - padding size) (grid_spacing size)).

Definition on_v (size w : Z) (xy : Z * Z) : bool :=
  line_px R (v_left_x size, v_top_y size) (v_center_x size, v_bottom_y size) w xy
  || line_px R (v_right_x size, v_top_y size) (v_center_x size, v_bottom_y size) w xy.

Definition in_rounded (size : Z) (xy : Z * Z) : bool :=
  rounded_rectangle_px R (0, 0, size, size) (corner_radius size) xy.

Definition surface (size : Z) (xy : Z * Z) : rgba :=
  if on_v size (glow_thickness size) xy then glow_color
  else if on_v size (v_thickness size) xy then v_color
  else if on_grid size xy then grid_color
  else match gradient_at size xy with
       | Some c => c
       | None => RGBA 0 0 0 0
       end.
End Coverage.

(** The claim of step 9, as the specification words it. *)
Definition alpha_combined_with_mask (R : Rasterizer) (size : Z) (xy : Z * Z) : Prop :=
  forall pre mask img p m q,
    before_mask R size = Ok pre -> rounded_mask R size = Ok mask ->
    create_voxmatrix_icon R size = Ok img ->
    getpixel pre xy = Ok p -> getpixel mask xy = Ok m -> getpixel img xy = Ok q ->
    alpha q = Z.min (alpha p) m.

(** [round(size * 0.1)] as the specification words it: [size / 10] rounded
    to the nearest integer, a tie going to the even neighbour as Python's
    [round] does. *)
Definition padding_as_specified (size : Z) : Z :=
  let q := size / 10 in
  let r := size mod 10 in
  if r <? 5 then q
  else if 5 <? r then q + 1
  else if Z.even q then q else q + 1.

(** Channel-wise closeness of two colours. *)
Definition close_to (tol : Z) (p c : rgba) : Prop :=
  Z.abs (red p - red c) <= tol /\ Z.abs (green p - green c) <= tol /\
  Z.abs (blue p - blue c) <= tol.

Definition blue_endpoint : rgba := RGBA 100 150 255 255.

(** [<base_path>/mipmap-<label>] and [<base_path>/mipmap-<label>/ic_launcher.png] *)
Definition icon_dir (label : string) : string := base_path +:+ "/mipmap-" +:+ label.

Definition icon_file (label : string) : string := icon_dir label +:+ "/ic_launcher.png".

(** The effects of a complete run of the driver, given the five icons. *)
Definition five_icon_trace (i48 i72 i96 i144 i192 : Image rgba) : list event :=
  [Print "Generating VoxMatrix app icons...";
   MakeDirs (icon_dir "mdpi") true;
   Save (icon_file "mdpi") "PNG" i48;
   Print ("Created mdpi icon (48x48): " +:+ icon_file "mdpi");
   MakeDirs (icon_dir "hdpi") true;
   Save (icon_file "hdpi") "PNG" i72;
   Print ("Created hdpi icon (72x72): " +:+ icon_file "hdpi");
   MakeDirs (icon_dir "xhdpi") true;
   Save (icon_file "xhdpi") "PNG" i96;
   Print ("Created xhdpi icon (96x96): " +:+ icon_file "xhdpi");
   MakeDirs (icon_dir "xxhdpi") true;
   Save (icon_file "xxhdpi") "PNG" i144;
   Print ("Created xxhdpi icon (144x144): " +:+ icon_file "xxhdpi");
   MakeDirs (icon_dir "xxxhdpi") true;
   Save (icon_file "xxxhdpi") "PNG" i192;
   Print ("Created xxxhdpi icon (192x192): " +:+ icon_file "xxxhdpi");
   Print (newline +:+ "Icon generation complete!");
   Print "Icons saved to: app/android/app/src/main/res/mipmap-*/"].

(** The three colour channels of a pixel. *)
Definition rgb (p : rgba) : Z * Z * Z := (red p, green p, blue p).

(** A pixel whose four channels are bytes. *)
Definition valid_pixel (p : rgba) : Prop :=
  0 <= red p <= 255 /\ 0 <= green p <= 255 /\ 0 <= blue p <= 255 /\
  0 <= alpha p <= 255.

(** A rasterizer whose strokes only grow with their width. *)
Definition widening (R : Rasterizer) : Prop :=
  forall p q w w' a, w <= w' -> line_px R p q w a = true -> line_px R p q w' a = true.

(** The five files of a run, written over the files [fl]. *)
Definition write_icons (i48 i72 i96 i144 i192 : Image rgba)
    (fl : gmap string (string * Image rgba)) : gmap string (string * Image rgba) :=
  <[icon_file "xxxhdpi" := ("PNG", i192)]>
    (<[icon_file "xxhdpi" := ("PNG", i144)]>
       (<[icon_file "xhdpi" := ("PNG", i96)]>
          (<[icon_file "hdpi" := ("PNG", i72)]>
             (<[icon_file "mdpi" := ("PNG", i48)]> fl)))).

(** The directories from the topmost one down to [<base_path>/mipmap-<label>]. *)
Definition mipmap_chain (label : string) : list string :=
  reverse (parents (icon_dir label)) ++ [icon_dir label].

(** Nothing is in the way of an entry: no regular file where it needs a
    directory, no directory where it writes its file. *)
Definition entry_ready (fs : FS) (label : string) : Prop :=
  Forall (fun c => is_file fs c = false) (mipmap_chain label) /\
  icon_file label ∉ dirs fs.

Definition writable (fs : FS) : Prop := Forall (entry_ready fs) (ICON_SIZES.*1).

#[local] Instance entry_ready_dec fs label : Decision (entry_ready fs label).
Proof. unfold entry_ready. apply _. Defined.

#[local] Instance writable_dec fs : Decision (writable fs).
Proof. unfold writable. apply _. Defined.

(** The file system after one entry, and after the five. *)
Definition after_entry (fs : FS) (label : string) (img : Image rgba) : FS :=
  MkFS (list_to_set (mipmap_chain label) ∪ dirs fs)
       (<[icon_file label := ("PNG", img)]> (files fs)).

Definition after_run (i48 i72 i96 i144 i192 : Image rgba) (fs : FS) : FS :=
  after_entry (after_entry (after_entry (after_entry (after_entry fs
    "mdpi" i48) "hdpi" i72) "xhdpi" i96) "xxhdpi" i144) "xxxhdpi" i192.

(** A directory the run may make: a mipmap directory or one above it. *)
Definition made_by_run (d : string) : Prop :=
  exists label size, (label, size) ∈ ICON_SIZES /\ d ∈ mipmap_chain label.

(** The directories above a mipmap directory hold no regular file, and the
    mipmap directory itself is one. *)
Definition leaf_is_file (s : FS) (label : string) : Prop :=
  Forall (fun c => is_file s c = false) (reverse (parents (icon_dir label))) /\
  is_file s (icon_dir label) = true.

(** Closed facts about the paths of the table, by evaluation. *)
Ltac by_computation :=
  lazymatch goal with
  | |- ?P => apply (@bool_decide_unpack P _); vm_compute; exact I
  end.

(** * Properties *)

(** ** Rounding to binary64 *)

Section F64Facts.

Import F64.

Lemma rne_bounds n k :
  0 <= n -> 0 <= k ->
  let t := 2 ^ k in
  n / t <= rne n k <= n / t + 1 /\ 2 * n - t <= 2 * (rne n k * t) <= 2 * n + t.
Proof.
  intros Hn Hk t.
  assert (Ht : 0 < t) by (subst t; apply Z.pow_pos_nonneg; lia).
  pose proof (Z.div_mod n t ltac:(lia)) as Hdm.
  pose proof (Z.mod_pos_bound n t Ht) as Hm.
  unfold rne. fold t.
  repeat case_match; rewrite ?Z.ltb_lt, ?Z.ltb_ge in *; split; nia.
Qed.

Lemma round53_small n : 0 <= n < 2 ^ 53 -> round53 n = n.
Proof.
  intros [Hn Hlt]. unfold round53.
  destruct (Z.eq_dec n 0) as [->|Hne]; [reflexivity|].
  assert (Z.log2 n < 53) by (apply Z.log2_lt_pow2; lia).
  case_match; rewrite ?Z.leb_le, ?Z.leb_gt in *; [reflexivity | lia].
Qed.

(** Rounding to 53 bits: the result is a multiple of a power of two [t] no
    larger than [n / 2^52], between the neighbours of [n] and within [t/2]
    of it. *)
Lemma round53_large n :
  2 ^ 53 <= n ->
  exists k, 1 <= k /\ 2 ^ (k + 52) <= n < 2 ^ (k + 53) /\
    (n / 2 ^ k) * 2 ^ k <= round53 n <= (n / 2 ^ k + 1) * 2 ^ k /\
    2 * n - 2 ^ k <= 2 * round53 n <= 2 * n + 2 ^ k.
Proof.
  intros Hn.
  assert (Hpos : 0 < n) by (pose proof (Z.pow_pos_nonneg 2 53); lia).
  assert (Hl : 53 <= Z.log2 n) by (apply Z.log2_le_pow2; lia).
  pose proof (Z.log2_spec n Hpos) as [Hlo Hhi].
  exists (Z.log2 n - 52). split; [lia|].
  replace (Z.log2 n - 52 + 52) with (Z.log2 n) by lia.
  replace (Z.log2 n - 52 + 53) with (Z.succ (Z.log2 n)) by lia.
  split; [lia|].
  unfold round53.
  case_match; rewrite ?Z.leb_le, ?Z.leb_gt in *; [lia|].
  pose proof (rne_bounds n (Z.log2 n - 52) ltac:(lia) ltac:(lia)) as [Hq Hr].
  cbv zeta in Hq, Hr.
  assert (Ht : 0 < 2 ^ (Z.log2 n - 52)) by (apply Z.pow_pos_nonneg; lia).
  split; nia.
Qed.

Lemma round53_nonneg n : 0 <= n -> 0 <= round53 n.
Proof.
  intros Hn. destruct (Z_lt_le_dec n (2 ^ 53)) as [Hs|Hb].
  - rewrite round53_small; lia.
  - destruct (round53_large n Hb) as (k & Hk & Hr & Hq & _).
    assert (0 < 2 ^ k) by (apply Z.pow_pos_nonneg; lia).
    assert (0 <= n / 2 ^ k) by (apply Z.div_pos; lia). nia.
Qed.

(** Relative error of the rounding: at most [2^-53], stated crudely. *)
Lemma round53_upper n : 0 <= n -> 2 ^ 53 * round53 n <= (2 ^ 53 + 1) * n.
Proof.
  intros Hn. destruct (Z_lt_le_dec n (2 ^ 53)) as [Hs|Hb].
  - rewrite round53_small; lia.
  - destruct (round53_large n Hb) as (k & Hk & [Hlo _] & _ & [_ Hr]).
    rewrite Z.pow_add_r in Hlo by lia.
    change (2 ^ 52) with 4503599627370496 in Hlo.
    change (2 ^ 53) with 9007199254740992 in *.
    lia.
Qed.

End F64Facts.

(** ** The padding *)

Section PaddingFacts.

Import F64.

Lemma padding_unfold size :
  padding size = round53 (round53 size * 3602879701896397) / 2 ^ 55.
Proof. reflexivity. Qed.

Lemma padding_bounds size : 0 <= size -> 0 <= padding size /\ 10 * padding size <= size + size / 2 ^ 50.
Proof.
  intros Hs. rewrite padding_unfold.
  pose proof (round53_nonneg size Hs) as Ha0.
  pose proof (round53_upper size Hs) as Ha.
  set (a := round53 size) in *.
  assert (Hp0 : 0 <= a * 3602879701896397) by lia.
  pose proof (round53_nonneg _ Hp0) as Hb0.
  pose proof (round53_upper _ Hp0) as Hb.
  set (b := round53 (a * 3602879701896397)) in *.
  assert (Ht : 0 < 2 ^ 55) by reflexivity.
  pose proof (Z.div_mod b (2 ^ 55) ltac:(lia)) as Hdm.
  pose proof (Z.mod_pos_bound b (2 ^ 55) Ht) as Hm.
  pose proof (Z.div_mod size (2 ^ 50) ltac:(lia)) as Hdm'.
  pose proof (Z.mod_pos_bound size (2 ^ 50) ltac:(reflexivity)) as Hm'.
  set (p := b / 2 ^ 55) in *. set (e := size / 2 ^ 50) in *.
  change (2 ^ 53) with 9007199254740992 in *.
  change (2 ^ 55) with 36028797018963968 in *.
  change (2 ^ 50) with 1125899906842624 in *.
  split; [apply Z.div_pos; lia|].
  lia.
Qed.

Lemma radius_pos size : 1 < size -> 0 < radius size.
Proof.
  intros Hs. unfold radius, icon_size.
  destruct (padding_bounds size ltac:(lia)) as [Hp0 Hp].
  pose proof (Z.div_mod size (2 ^ 50) ltac:(lia)) as Hdm'.
  pose proof (Z.mod_pos_bound size (2 ^ 50) ltac:(reflexivity)) as Hm'.
  change (2 ^ 50) with 1125899906842624 in *.
  apply Z.div_str_pos. lia.
Qed.

Lemma padding_floor size : 0 <= size < 2 ^ 52 -> padding size = size / 10.
Proof.
  intros [Hs Hlt]. rewrite padding_unfold.
  rewrite (round53_small size) by (change (2 ^ 53) with (2 * 2 ^ 52); lia).
  set (P := size * 3602879701896397).
  pose proof (Z.div_mod size 10 ltac:(lia)) as Hdm.
  pose proof (Z.mod_pos_bound size 10 ltac:(lia)) as Hm.
  set (q := size / 10) in *. set (r := size mod 10) in *.
  symmetry. apply Z.div_unique_pos with (r := round53 P - q * 2 ^ 55);
    [|lia].
  change (2 ^ 52) with 4503599627370496 in *.
  destruct (Z_lt_le_dec P (2 ^ 53)) as [Hsm|Hbig].
  - rewrite round53_small by lia.
    change (2 ^ 53) with 9007199254740992 in *.
    change (2 ^ 55) with 36028797018963968 in *. subst P. lia.
  - destruct (round53_large P Hbig) as (k & Hk & [Hlo Hhi] & [Hfl _] & [Hr1 Hr2]).
    assert (Hk55 : k <= 55).
    { destruct (Z_le_gt_dec k 55) as [|Hgt]; [lia|exfalso].
      assert (2 ^ 108 <= 2 ^ (k + 52)) by (apply Z.pow_le_mono_r; lia).
      change (2 ^ 108) with 324518553658426726783156020576256 in *.
      subst P. lia. }
    rewrite Z.pow_add_r in Hlo by lia.
    assert (Ht : 0 < 2 ^ k) by (apply Z.pow_pos_nonneg; lia).
    assert (H55 : 2 ^ 55 = 2 ^ k * 2 ^ (55 - k)).
    { rewrite <- Z.pow_add_r by lia. f_equal. lia. }
    assert (Ht' : 0 < 2 ^ (55 - k)) by (apply Z.pow_pos_nonneg; lia).
    set (t := 2 ^ k) in *. set (t' := 2 ^ (55 - k)) in *.
    assert (Hqt : q * t' <= P / t).
    { apply Z.div_le_lower_bound; [lia|].
      change (2 ^ 55) with 36028797018963968 in *. subst P. nia. }
    change (2 ^ 52) with 4503599627370496 in *.
    change (2 ^ 53) with 9007199254740992 in *.
    split.
    + nia.
    + change (2 ^ 55) with 36028797018963968 in *. subst P. lia.
Qed.

End PaddingFacts.

(** ** Exact arithmetic *)

Lemma sqrt_up_spec a :
  0 <= a ->
  let n := Exact.sqrt_up a in
  0 <= n /\ a <= n * n /\ (n = 0 \/ (n - 1) * (n - 1) < a).
Proof.
  intros Ha n. subst n. unfold Exact.sqrt_up.
  pose proof (Z.sqrt_spec a Ha) as Hs. cbv zeta in Hs. pose proof (Z.sqrt_nonneg a) as H0.
  case_match; rewrite ?Z.eqb_eq, ?Z.eqb_neq in *.
  - split; [lia|]. split; [nia|].
    destruct (Z.eq_dec (Z.sqrt a) 0); [left; lia|right; nia].
  - split; [lia|]. split; [nia|].
    right. replace (Z.sqrt a + 1 - 1) with (Z.sqrt a) by lia. lia.
Qed.

Lemma sqrt_up_le a k : 0 <= a -> 0 <= k -> Exact.sqrt_up a <= k <-> a <= k * k.
Proof.
  intros Ha Hk. destruct (sqrt_up_spec a Ha) as (H0 & H1 & H2).
  split; intros H; [nia|].
  destruct H2 as [->|H2]; [lia|]. nia.
Qed.

(** [dist <= radius], without the square root. *)
Lemma leb_sqrt d k :
  0 <= d -> 0 <= k -> Exact.leb (Exact.sqrt d) k = true <-> d <= k * k.
Proof.
  intros Hd Hk. unfold Exact.leb, Exact.sqrt, Exact.ceil_numer, Exact.ceil_surd. simpl.
  rewrite Z.leb_le. replace (1 * 1 * d) with d by lia.
  replace (k * 1) with k by lia. replace (0 + Exact.sqrt_up d) with (Exact.sqrt_up d) by lia.
  apply sqrt_up_le; lia.
Qed.

(** The three channels, in closed form. *)
Lemma gradient_color_eq d r :
  0 <= d -> 0 < r -> d <= r * r ->
  gradient_color (Exact.sqrt d) r =
    Ok (RGBA (100 + Z.sqrt (1444 * d) / r)
             ((150 * r - Exact.sqrt_up (11449 * d)) / r)
             ((255 * r - Exact.sqrt_up (3600 * d)) / r) 255).
Proof.
  intros Hd Hr Hle. unfold gradient_color, Exact.div.
  destruct (Z.eqb_spec r 0) as [|_]; [lia|].
  destruct (Z.ltb_spec 0 r) as [_|]; [|lia].
  cbn [mbind result_bind].
  assert (H107 : Exact.sqrt_up (11449 * d) <= 107 * r)
    by (apply sqrt_up_le; nia).
  assert (H60 : Exact.sqrt_up (3600 * d) <= 60 * r)
    by (apply sqrt_up_le; nia).
  pose proof (Z.sqrt_nonneg (1444 * d)).
  unfold Exact.sub.
  unfold Exact.int, Exact.add, Exact.mul, Exact.sqrt, Exact.floor_numer,
    Exact.floor_surd; cbn [Exact.np Exact.nc Exact.nd Exact.nq].
  change (138 - 100) with 38. change (43 - 150) with (-107).
  rewrite ?Z.mul_1_l, ?Z.mul_1_r, ?Z.mul_0_r, ?Z.add_0_l.
  change (-1 * 60) with (-60).
  change (0 <=? 38) with true. change (0 <=? -107) with false.
  change (0 <=? -60) with false. cbv iota.
  replace (38 * 38 * d) with (1444 * d) by lia.
  replace (-107 * -107 * d) with (11449 * d) by lia.
  replace (-60 * -60 * d) with (3600 * d) by lia.
  destruct (Z.leb_spec 0 (100 * r + Z.sqrt (1444 * d))); [|lia].
  destruct (Z.leb_spec 0 (150 * r + - Exact.sqrt_up (11449 * d))); [|lia].
  destruct (Z.leb_spec 0 (255 * r + - Exact.sqrt_up (3600 * d))); [|lia].
  replace (100 * r + Z.sqrt (1444 * d)) with (Z.sqrt (1444 * d) + 100 * r) by lia.
  rewrite Z.div_add by lia.
  do 2 f_equal; lia.
Qed.

(** [m = floor (sqrt a / r)]: what dividing the integer square root by [r]
    computes. *)
Lemma floor_sqrt_div a r :
  0 <= a -> 0 < r ->
  let m := Z.sqrt a / r in
  0 <= m /\ (m * r) * (m * r) <= a < ((m + 1) * r) * ((m + 1) * r).
Proof.
  intros Ha Hr m. subst m.
  pose proof (Z.sqrt_spec a Ha) as Hs. cbv zeta in Hs.
  pose proof (Z.sqrt_nonneg a) as H0.
  pose proof (Z.div_mod (Z.sqrt a) r ltac:(lia)) as Hdm.
  pose proof (Z.mod_pos_bound (Z.sqrt a) r Hr) as Hm.
  assert (Hq : 0 <= Z.sqrt a / r) by (apply Z.div_pos; lia).
  set (s := Z.sqrt a) in *. set (q := s / r) in *.
  split; [lia|]. split.
  - assert (q * r <= s) by lia. nia.
  - assert (s + 1 <= (q + 1) * r) by lia. nia.
Qed.

(** [n = ceil (sqrt a / r)], read off [(K * r - sqrt_up a) / r = K - n]. *)
Lemma ceil_sqrt_div a r K :
  0 <= a -> 0 < r ->
  let n := K - (K * r - Exact.sqrt_up a) / r in
  0 <= n /\ a <= (n * r) * (n * r) /\ (n = 0 \/ ((n - 1) * r) * ((n - 1) * r) < a).
Proof.
  intros Ha Hr n. subst n.
  destruct (sqrt_up_spec a Ha) as (Hu0 & Hu1 & Hu2).
  set (u := Exact.sqrt_up a) in *.
  pose proof (Z.div_mod (K * r - u) r ltac:(lia)) as Hdm.
  pose proof (Z.mod_pos_bound (K * r - u) r Hr) as Hm.
  set (g := (K * r - u) / r) in *.
  assert (Hn1 : u <= (K - g) * r) by lia.
  assert (Hn2 : (K - g - 1) * r < u) by lia.
  assert (Hn0 : 0 <= K - g) by nia.
  split; [lia|]. split; [nia|].
  destruct (Z.eq_dec (K - g) 0) as [|Hne]; [left; lia|right].
  destruct Hu2 as [Hu2|Hu2]; [exfalso; nia|].
  assert ((K - g - 1) * r <= u - 1) by lia.
  assert (0 <= (K - g - 1) * r) by nia.
  nia.
Qed.

(** ** Images *)

Section ImageFacts.

Context {A : Type}.
Implicit Types (img : Image A) (xy : Z * Z).

Lemma in_image_inside img xy : in_image img xy = true <-> inside img xy.
Proof. unfold in_image, inside. rewrite !andb_true_iff, !Z.leb_le, !Z.ltb_lt. lia. Qed.

Lemma wrap_inside img xy : inside img xy -> wrap img xy = xy.
Proof.
  intros [[H1 _] [H2 _]]. unfold wrap. destruct xy as [x y]; simpl in *.
  destruct (Z.ltb_spec x 0), (Z.ltb_spec y 0); try lia. reflexivity.
Qed.

Lemma offset_lt img xy : wf img -> inside img xy -> (offset img xy < length (data img))%nat.
Proof.
  intros (Hw & Hh & Hl) [Hx Hy]. rewrite Hl. unfold offset. apply Z2Nat.inj_lt; nia.
Qed.

Lemma coords_offset img xy : inside img xy -> coords img (offset img xy) = xy.
Proof.
  intros [Hx Hy]. unfold coords, offset. destruct xy as [x y]; simpl in *.
  rewrite Z2Nat.id by nia. f_equal.
  - rewrite Z.add_comm, Z.mod_add by lia. apply Z.mod_small; lia.
  - rewrite Z.add_comm, Z.div_add by lia. rewrite Z.div_small by lia. lia.
Qed.

Lemma offset_inj img xy xy' :
  inside img xy -> inside img xy' -> offset img xy = offset img xy' -> xy = xy'.
Proof.
  intros H H' Heq. rewrite <- (coords_offset img xy H), <- (coords_offset img xy' H').
  by rewrite Heq.
Qed.

(** Inside a well-formed image, [getpixel] reads the buffer. *)
Lemma getpixel_inside img xy :
  wf img -> inside img xy ->
  exists p, data img !! offset img xy = Some p /\ getpixel img xy = Ok p.
Proof.
  intros Hwf Hin. unfold getpixel. rewrite (wrap_inside _ _ Hin).
  rewrite (proj2 (in_image_inside img xy) Hin).
  destruct (lookup_lt_is_Some_2 _ _ (offset_lt img xy Hwf Hin)) as [p Hp].
  exists p. by rewrite Hp.
Qed.

Lemma getpixel_lookup img xy p :
  wf img -> inside img xy ->
  getpixel img xy = Ok p <-> data img !! offset img xy = Some p.
Proof.
  intros Hwf Hin. destruct (getpixel_inside img xy Hwf Hin) as (q & Hq & Hg).
  rewrite Hq, Hg. split; intros [= ->]; reflexivity.
Qed.

Lemma new_spec (w h : Z) (fill : A) :
  0 <= w -> 0 <= h ->
  exists img, new w h fill = Ok img /\ wf img /\ width img = w /\ height img = h /\
    forall xy, inside img xy -> getpixel img xy = Ok fill.
Proof.
  intros Hw Hh. unfold new.
  destruct (Z.ltb_spec w 0), (Z.ltb_spec h 0); try lia. simpl.
  eexists. split; [reflexivity|].
  assert (Hwf : wf (MkImage w h (replicate (Z.to_nat (w * h)) fill))).
  { repeat split; simpl; try lia. apply length_replicate. }
  split; [exact Hwf|]. do 2 (split; [reflexivity|]).
  intros xy Hin. apply getpixel_lookup; [done..|]. simpl.
  apply lookup_replicate_2. pose proof (offset_lt _ xy Hwf Hin) as Hlt.
  simpl in Hlt. by rewrite length_replicate in Hlt.
Qed.

Lemma putpixel_spec img xy (v : A) :
  wf img -> inside img xy ->
  exists img', putpixel img xy v = Ok img' /\ wf img' /\
    width img' = width img /\ height img' = height img /\
    getpixel img' xy = Ok v /\
    forall xy', inside img xy' -> xy' <> xy -> getpixel img' xy' = getpixel img xy'.
Proof.
  intros Hwf Hin. unfold putpixel. rewrite (wrap_inside _ _ Hin).
  rewrite (proj2 (in_image_inside img xy) Hin).
  eexists. split; [reflexivity|].
  set (img' := MkImage _ _ _).
  assert (Hwf' : wf img').
  { destruct Hwf as (? & ? & Hl). repeat split; simpl; try lia.
    by rewrite length_insert. }
  split; [exact Hwf'|]. do 2 (split; [reflexivity|]). split.
  - apply getpixel_lookup; [done..|]. simpl.
    apply list_lookup_insert_eq. by apply offset_lt.
  - intros xy' Hin' Hne.
    destruct (getpixel_inside img xy' Hwf Hin') as (p & Hp & ->).
    apply getpixel_lookup; [done..|]. simpl.
    rewrite list_lookup_insert_ne; [exact Hp|].
    intros Heq. apply Hne. symmetry. by apply (offset_inj img).
Qed.

Lemma paint_spec img (covered : Z * Z -> bool) (ink : A) :
  wf img ->
  wf (paint img covered ink) /\
  width (paint img covered ink) = width img /\
  height (paint img covered ink) = height img /\
  forall xy, inside img xy ->
    getpixel (paint img covered ink) xy =
      if covered xy then Ok ink else getpixel img xy.
Proof.
  intros Hwf.
  assert (Hwf' : wf (paint img covered ink)).
  { destruct Hwf as (? & ? & Hl). repeat split; simpl; try lia.
    by rewrite length_imap. }
  split; [exact Hwf'|]. do 2 (split; [reflexivity|]).
  intros xy Hin.
  destruct (getpixel_inside img xy Hwf Hin) as (p & Hp & Hg).
  assert (Hin' : inside (paint img covered ink) xy) by exact Hin.
  transitivity (Ok (if covered xy then ink else p)); [|by destruct (covered xy)].
  apply getpixel_lookup; [done..|]. simpl.
  change (offset (paint img covered ink) xy) with (offset img xy).
  rewrite list_lookup_imap, Hp. simpl.
  change (coords (paint img covered ink)) with (coords img).
  by rewrite coords_offset.
Qed.

End ImageFacts.

Lemma putalpha_spec (img : Image rgba) (mask : Image Z) :
  wf img -> wf mask -> width mask = width img -> height mask = height img ->
  exists out, putalpha img mask = Ok out /\ wf out /\
    width out = width img /\ height out = height img /\
    forall xy p m, inside img xy ->
      getpixel img xy = Ok p -> getpixel mask xy = Ok m ->
      getpixel out xy = Ok (RGBA (red p) (green p) (blue p) m).
Proof.
  intros Hwf Hwfm Hw Hh. unfold putalpha.
  rewrite Hw, Hh, !Z.eqb_refl. simpl.
  eexists. split; [reflexivity|]. set (out := MkImage _ _ _).
  assert (Hwf' : wf out).
  { destruct Hwf as (? & ? & Hl), Hwfm as (? & ? & Hlm).
    repeat split; simpl; try lia.
    rewrite length_zip_with, Hl, Hlm, Hw, Hh. lia. }
  split; [exact Hwf'|]. do 2 (split; [reflexivity|]).
  intros xy p m Hin Hp Hm.
  assert (Hinm : inside mask xy) by (unfold inside; rewrite Hw, Hh; exact Hin).
  apply getpixel_lookup in Hp; [|done..]. apply getpixel_lookup in Hm; [|done..].
  apply getpixel_lookup; [done..|]. simpl.
  change (offset out xy) with (offset img xy).
  assert (Hoff : offset mask xy = offset img xy) by (unfold offset; by rewrite Hw).
  rewrite Hoff in Hm.
  rewrite lookup_zip_with, Hp. simpl. by rewrite Hm.
Qed.

(** ** Pixel loops *)

Lemma for_ext {A S : Type} (xs : list A) (f g : A -> S -> result S) s :
  (forall x s, x ∈ xs -> f x s = g x s) -> for_ xs f s = for_ xs g s.
Proof.
  revert s. induction xs as [|x xs IH]; intros s Hfg; [reflexivity|].
  simpl. rewrite Hfg by left. destruct (g x s); simpl; [|reflexivity].
  apply IH. intros. apply Hfg. by right.
Qed.

Section PixelLoops.

Context {A : Type} (sel : Z * Z -> option A).

Lemma put_if_spec xy (img : Image A) :
  wf img -> inside img xy ->
  exists img', put_if sel xy img = Ok img' /\ wf img' /\
    width img' = width img /\ height img' = height img /\
    forall xy', inside img xy' ->
      getpixel img' xy' =
        if decide (xy' = xy) then
          match sel xy with Some c => Ok c | None => getpixel img xy' end
        else getpixel img xy'.
Proof.
  intros Hwf Hin. unfold put_if. destruct (sel xy) as [c|].
  - destruct (putpixel_spec img xy c Hwf Hin) as (img' & -> & Hwf' & Hw & Hh & Hset & Hoth).
    exists img'. do 4 (split; [done|]).
    intros xy' Hin'. destruct (decide (xy' = xy)) as [->|Hne]; [done|]. by apply Hoth.
  - exists img. do 4 (split; [done|]). intros. by destruct (decide _).
Qed.

(** One row of the pixel loops. *)
Lemma row_spec (y : Z) (xs : list Z) (img : Image A) :
  wf img -> 0 <= y < height img -> Forall (fun x => 0 <= x < width img) xs ->
  exists img', for_ xs (fun x => put_if sel (x, y)) img = Ok img' /\ wf img' /\
    width img' = width img /\ height img' = height img /\
    forall xy, inside img xy ->
      getpixel img' xy =
        if decide (xy.2 = y /\ xy.1 ∈ xs) then
          match sel xy with Some c => Ok c | None => getpixel img xy end
        else getpixel img xy.
Proof.
  revert img. induction xs as [|x xs IH]; intros img Hwf Hy Hxs.
  - exists img. do 4 (split; [done|]). intros xy _.
    destruct (decide _) as [[_ H]|]; [|done]. by apply elem_of_nil in H.
  - apply Forall_cons in Hxs as [Hx Hxs]. simpl.
    destruct (put_if_spec (x, y) img Hwf) as (img1 & -> & Hwf1 & Hw1 & Hh1 & Hpx1);
      [split; simpl; lia|]. simpl.
    destruct (IH img1 Hwf1) as (img' & -> & Hwf' & Hw' & Hh' & Hpx');
      [lia | by rewrite Hw1 |].
    exists img'. split; [done|]. split; [done|].
    split; [congruence|]. split; [congruence|].
    intros xy Hin.
    assert (Hin1 : inside img1 xy) by (unfold inside; by rewrite Hw1, Hh1).
    rewrite (Hpx' xy Hin1), (Hpx1 xy Hin).
    destruct xy as [x' y']; simpl.
    repeat case_decide; destruct_and?; simplify_eq/=;
      try done; try (by destruct (sel _)); exfalso; set_solver.
Qed.

(** The two nested loops. *)
Lemma rows_spec (ys xs : list Z) (img : Image A) :
  wf img -> Forall (fun y => 0 <= y < height img) ys ->
  Forall (fun x => 0 <= x < width img) xs ->
  exists img',
    for_ ys (fun y => for_ xs (fun x => put_if sel (x, y))) img = Ok img' /\ wf img' /\
    width img' = width img /\ height img' = height img /\
    forall xy, inside img xy ->
      getpixel img' xy =
        if decide (xy.2 ∈ ys /\ xy.1 ∈ xs) then
          match sel xy with Some c => Ok c | None => getpixel img xy end
        else getpixel img xy.
Proof.
  revert img. induction ys as [|y ys IH]; intros img Hwf Hys Hxs.
  - exists img. do 4 (split; [done|]). intros xy _.
    destruct (decide _) as [[H _]|]; [|done]. by apply elem_of_nil in H.
  - apply Forall_cons in Hys as [Hy Hys]. simpl.
    destruct (row_spec y xs img Hwf Hy Hxs) as (img1 & -> & Hwf1 & Hw1 & Hh1 & Hpx1).
    simpl.
    destruct (IH img1 Hwf1) as (img' & -> & Hwf' & Hw' & Hh' & Hpx');
      [by rewrite Hh1 | by rewrite Hw1 |].
    exists img'. split; [done|]. split; [done|].
    split; [congruence|]. split; [congruence|].
    intros xy Hin.
    assert (Hin1 : inside img1 xy) by (unfold inside; by rewrite Hw1, Hh1).
    rewrite (Hpx' xy Hin1), (Hpx1 xy Hin).
    destruct xy as [x' y']; simpl.
    repeat case_decide; destruct_and?; simplify_eq/=;
      try done; try (by destruct (sel _)); exfalso; set_solver.
Qed.

End PixelLoops.

Lemma range_bounds n : Forall (fun x => 0 <= x < n) (range n).
Proof. apply Forall_forall. intros x Hx. apply elem_of_seqZ in Hx. lia. Qed.

Lemma elem_of_range n x : x ∈ range n <-> 0 <= x < n.
Proof. unfold range. rewrite elem_of_seqZ. lia. Qed.

Lemma gradient_pixel_put_if size y x img :
  radius size <> 0 ->
  gradient_pixel size y x img = put_if (gradient_at size) (x, y) img.
Proof.
  intros Hr. unfold gradient_pixel, put_if, gradient_at, dist2. simpl.
  destruct (Exact.leb _ _); [|reflexivity].
  unfold gradient_color, Exact.div.
  destruct (Z.eqb_spec (radius size) 0); [done|].
  destruct (0 <? radius size); reflexivity.
Qed.

(** Lines 36-46 as a whole: every pixel of the disc gets its gradient
    colour, every other pixel is left as it was. *)
Lemma draw_gradient_spec size img :
  radius size <> 0 -> wf img -> width img = size -> height img = size ->
  exists img', draw_gradient size img = Ok img' /\ wf img' /\
    width img' = size /\ height img' = size /\
    forall xy, inside img xy ->
      getpixel img' xy =
        match gradient_at size xy with Some c => Ok c | None => getpixel img xy end.
Proof.
  intros Hr Hwf Hw Hh. unfold draw_gradient.
  destruct (rows_spec (gradient_at size) (range size) (range size) img Hwf)
    as (img' & Heq & Hwf' & Hw' & Hh' & Hpx).
  { rewrite Hh. apply range_bounds. }
  { rewrite Hw. apply range_bounds. }
  exists img'. split.
  - rewrite <- Heq. apply for_ext. intros y s _. apply for_ext. intros x s' _.
    by apply gradient_pixel_put_if.
  - split; [done|]. split; [congruence|]. split; [congruence|].
    intros xy Hin. rewrite (Hpx xy Hin).
    destruct Hin as [Hx Hy]. rewrite Hw in Hx. rewrite Hh in Hy.
    rewrite decide_True; [done|]. by rewrite !elem_of_range.
Qed.

(** ** The renderer, pixel by pixel *)

Section RendererFacts.
Context (R : Rasterizer).
Implicit Types (img : Image rgba) (xy : Z * Z).

Lemma draw_line_spec {A : Type} (im : Image A) p q (ink : A) w :
  wf im ->
  wf (draw_line R im p q ink w) /\
  width (draw_line R im p q ink w) = width im /\
  height (draw_line R im p q ink w) = height im /\
  forall xy, inside im xy ->
    getpixel (draw_line R im p q ink w) xy =
      if line_px R p q w xy then Ok ink else getpixel im xy.
Proof. apply paint_spec. Qed.

Lemma grid_step_spec size img i :
  wf img ->
  wf (grid_step R size img i) /\
  width (grid_step R size img i) = width img /\
  height (grid_step R size img i) = height img /\
  forall xy, inside img xy ->
    getpixel (grid_step R size img i) xy =
      if on_grid_line R size i xy then Ok grid_color else getpixel img xy.
Proof.
  intros Hwf. unfold grid_step, on_grid_line.
  destruct (draw_line_spec img (i, padding size) (i, size - padding size) grid_color 1 Hwf)
    as (Hwf1 & Hw1 & Hh1 & Hpx1).
  set (img1 := draw_line R img _ _ _ _) in *.
  destruct (draw_line_spec img1 (padding size, i) (size - padding size, i) grid_color 1 Hwf1)
    as (Hwf2 & Hw2 & Hh2 & Hpx2).
  split; [done|]. split; [congruence|]. split; [congruence|].
  intros xy Hin. rewrite Hpx2 by (unfold inside; by rewrite Hw1, Hh1).
  rewrite (Hpx1 xy Hin). by repeat destruct (line_px _ _ _ _ _).
Qed.

Lemma foldl_grid_spec size (steps : list Z) img :
  wf img ->
  wf (foldl (grid_step R size) img steps) /\
  width (foldl (grid_step R size) img steps) = width img /\
  height (foldl (grid_step R size) img steps) = height img /\
  forall xy, inside img xy ->
    getpixel (foldl (grid_step R size) img steps) xy =
      if existsb (fun i => on_grid_line R size i xy) steps then Ok grid_color
      else getpixel img xy.
Proof.
  revert img. induction steps as [|i steps IH]; intros img Hwf; [done|].
  simpl. destruct (grid_step_spec size img i Hwf) as (Hwf1 & Hw1 & Hh1 & Hpx1).
  destruct (IH _ Hwf1) as (Hwf2 & Hw2 & Hh2 & Hpx2).
  split; [done|]. split; [congruence|]. split; [congruence|].
  intros xy Hin. rewrite Hpx2 by (unfold inside; by rewrite Hw1, Hh1).
  rewrite (Hpx1 xy Hin).
  by destruct (on_grid_line R size i xy), (existsb _ steps).
Qed.

Lemma draw_grid_spec size img :
  wf img ->
  wf (draw_grid R size img) /\
  width (draw_grid R size img) = width img /\
  height (draw_grid R size img) = height img /\
  forall xy, inside img xy ->
    getpixel (draw_grid R size img) xy =
      if on_grid R size xy then Ok grid_color else getpixel img xy.
Proof. apply foldl_grid_spec. Qed.

Lemma draw_v_spec size ink w img :
  wf img ->
  wf (draw_v R size ink w img) /\
  width (draw_v R size ink w img) = width img /\
  height (draw_v R size ink w img) = height img /\
  forall xy, inside img xy ->
    getpixel (draw_v R size ink w img) xy =
      if on_v R size w xy then Ok ink else getpixel img xy.
Proof.
  intros Hwf. unfold draw_v, on_v.
  destruct (draw_line_spec img (v_left_x size, v_top_y size)
              (v_center_x size, v_bottom_y size) ink w Hwf)
    as (Hwf1 & Hw1 & Hh1 & Hpx1).
  set (img1 := draw_line R img _ _ _ _) in *.
  destruct (draw_line_spec img1 (v_right_x size, v_top_y size)
              (v_center_x size, v_bottom_y size) ink w Hwf1)
    as (Hwf2 & Hw2 & Hh2 & Hpx2).
  split; [done|]. split; [congruence|]. split; [congruence|].
  intros xy Hin. rewrite Hpx2 by (unfold inside; by rewrite Hw1, Hh1).
  rewrite (Hpx1 xy Hin). by repeat destruct (line_px _ _ _ _ _).
Qed.

(** Lines 24-46. *)
Lemma after_gradient_spec size :
  1 < size ->
  exists img, after_gradient size = Ok img /\ wf img /\
    width img = size /\ height img = size /\
    forall xy, inside img xy ->
      getpixel img xy =
        Ok (match gradient_at size xy with Some c => c | None => RGBA 0 0 0 0 end).
Proof.
  intros Hs. unfold after_gradient.
  destruct (new_spec size size (RGBA 0 0 0 0)) as (img0 & -> & Hwf0 & Hw0 & Hh0 & Hpx0);
    [lia..|]. simpl.
  pose proof (radius_pos size Hs) as Hr.
  destruct (draw_gradient_spec size img0 ltac:(lia) Hwf0 Hw0 Hh0)
    as (img & -> & Hwf & Hw & Hh & Hpx).
  exists img. do 4 (split; [done|]).
  intros xy Hin.
  assert (Hin0 : inside img0 xy).
  { unfold inside in *. rewrite Hw0, Hh0. by rewrite Hw, Hh in Hin. }
  rewrite (Hpx xy Hin0). destruct (gradient_at size xy); [done|]. by apply Hpx0.
Qed.

(** Lines 24-83. *)
Lemma before_mask_spec size :
  1 < size ->
  exists img, before_mask R size = Ok img /\ wf img /\
    width img = size /\ height img = size /\
    forall xy, inside img xy -> getpixel img xy = Ok (surface R size xy).
Proof.
  intros Hs. unfold before_mask.
  destruct (after_gradient_spec size Hs) as (img0 & -> & Hwf0 & Hw0 & Hh0 & Hpx0).
  simpl.
  destruct (draw_grid_spec size img0 Hwf0) as (Hwf1 & Hw1 & Hh1 & Hpx1).
  set (img1 := draw_grid R size img0) in *.
  destruct (draw_v_spec size v_color (v_thickness size) img1 Hwf1)
    as (Hwf2 & Hw2 & Hh2 & Hpx2).
  fold (draw_glyph R size img1) in *. set (img2 := draw_glyph R size img1) in *.
  destruct (draw_v_spec size glow_color (glow_thickness size) img2 Hwf2)
    as (Hwf3 & Hw3 & Hh3 & Hpx3).
  fold (draw_glow R size img2) in *. set (img3 := draw_glow R size img2) in *.
  exists img3. split; [done|]. split; [done|].
  split; [congruence|]. split; [congruence|].
  intros xy Hin.
  assert (Hin0 : inside img0 xy).
  { unfold inside in *. rewrite Hw3, Hw2, Hw1, Hh3, Hh2, Hh1 in Hin. done. }
  assert (Hin1 : inside img1 xy) by (unfold inside; by rewrite Hw1, Hh1).
  assert (Hin2 : inside img2 xy) by (unfold inside; by rewrite Hw2, Hh2).
  rewrite (Hpx3 xy Hin2), (Hpx2 xy Hin1), (Hpx1 xy Hin0), (Hpx0 xy Hin0).
  unfold surface. by repeat case_match.
Qed.

(** Lines 86-89. *)
Lemma rounded_mask_spec size :
  0 <= size ->
  exists mask, rounded_mask R size = Ok mask /\ wf mask /\
    width mask = size /\ height mask = size /\
    forall xy, inside mask xy ->
      getpixel mask xy = Ok (if in_rounded R size xy then 255 else 0).
Proof.
  intros Hs. unfold rounded_mask.
  destruct (new_spec size size 0) as (m0 & -> & Hwf0 & Hw0 & Hh0 & Hpx0); [lia..|].
  simpl. destruct (paint_spec m0 (rounded_rectangle_px R (0, 0, size, size) (corner_radius size))
                     255 Hwf0) as (Hwf1 & Hw1 & Hh1 & Hpx1).
  eexists. split; [reflexivity|]. split; [exact Hwf1|].
  split; [unfold draw_rounded_rectangle; congruence|].
  split; [unfold draw_rounded_rectangle; congruence|].
  intros xy Hin. unfold draw_rounded_rectangle, in_rounded in *.
  assert (Hin0 : inside m0 xy) by (unfold inside in *; by rewrite Hw1, Hh1 in Hin).
  rewrite (Hpx1 xy Hin0). destruct (rounded_rectangle_px _ _ _ _); [done|]. by apply Hpx0.
Qed.

(** The whole renderer, pixel by pixel. *)
Lemma create_voxmatrix_icon_spec size :
  1 < size ->
  exists pre mask img,
    before_mask R size = Ok pre /\ rounded_mask R size = Ok mask /\
    create_voxmatrix_icon R size = Ok img /\
    wf img /\ width img = size /\ height img = size /\
    forall x y, 0 <= x < size -> 0 <= y < size ->
      getpixel pre (x, y) = Ok (surface R size (x, y)) /\
      getpixel mask (x, y) = Ok (if in_rounded R size (x, y) then 255 else 0) /\
      getpixel img (x, y) =
        Ok (RGBA (red (surface R size (x, y))) (green (surface R size (x, y)))
              (blue (surface R size (x, y)))
              (if in_rounded R size (x, y) then 255 else 0)).
Proof.
  intros Hs. unfold create_voxmatrix_icon.
  destruct (before_mask_spec size Hs) as (pre & Hpre & Hwf & Hw & Hh & Hpx).
  destruct (rounded_mask_spec size ltac:(lia)) as (mask & Hmask & Hwfm & Hwm & Hhm & Hpxm).
  rewrite Hpre, Hmask. simpl.
  destruct (putalpha_spec pre mask Hwf Hwfm ltac:(congruence) ltac:(congruence))
    as (img & -> & Hwf' & Hw' & Hh' & Hpx').
  exists pre, mask, img. do 4 (split; [done|]).
  split; [congruence|]. split; [congruence|].
  intros x y Hx Hy.
  assert (Hin : inside pre (x, y)) by (unfold inside; simpl; lia).
  assert (Hinm : inside mask (x, y)) by (unfold inside; simpl; lia).
  split; [by apply Hpx|]. split; [by apply Hpxm|].
  apply Hpx'; [done | by apply Hpx | by apply Hpxm].
Qed.

End RendererFacts.

(** ** The gradient *)

Lemma dist2_nonneg size xy : 0 <= dist2 size xy.
Proof.
  unfold dist2. rewrite !Z.pow_2_r.
  pose proof (Z.square_nonneg (xy.1 - center size)).
  pose proof (Z.square_nonneg (xy.2 - center size)). lia.
Qed.

Lemma radius_nonneg size : 1 < size -> 0 <= radius size.
Proof. intros H. pose proof (radius_pos size H). lia. Qed.

Lemma gradient_at_inside size xy :
  0 < radius size -> dist2 size xy <= radius size ^ 2 ->
  gradient_at size xy =
    Some (RGBA (100 + Z.sqrt (1444 * dist2 size xy) / radius size)
            ((150 * radius size - Exact.sqrt_up (11449 * dist2 size xy)) / radius size)
            ((255 * radius size - Exact.sqrt_up (3600 * dist2 size xy)) / radius size)
            255).
Proof.
  intros Hr Hd. rewrite Z.pow_2_r in Hd. pose proof (dist2_nonneg size xy) as H0.
  unfold gradient_at. cbv zeta.
  rewrite (proj2 (leb_sqrt (dist2 size xy) (radius size) H0 ltac:(lia)) Hd).
  by rewrite gradient_color_eq.
Qed.

Lemma gradient_at_outside size xy :
  0 <= radius size -> radius size ^ 2 < dist2 size xy -> gradient_at size xy = None.
Proof.
  intros Hr Hd. rewrite Z.pow_2_r in Hd. pose proof (dist2_nonneg size xy) as H0.
  unfold gradient_at. cbv zeta.
  destruct (Exact.leb _ _) eqn:Hleb; [|done].
  apply (leb_sqrt (dist2 size xy) (radius size)) in Hleb; lia.
Qed.

Lemma scaled_square_le a b r :
  0 < r -> 0 <= b -> (a * r) * (a * r) <= (b * r) * (b * r) -> a <= b.
Proof.
  intros Hr Hb H. apply Z.square_le_simpl_nonneg in H; [|nia].
  apply Z.mul_le_mono_pos_r in H; lia.
Qed.

Lemma scaled_square_lt a b r :
  0 < r -> 0 <= b -> (a * r) * (a * r) < (b * r) * (b * r) -> a < b.
Proof.
  intros Hr Hb H. apply Z.square_lt_simpl_nonneg in H; [|nia].
  apply Z.mul_lt_mono_pos_r in H; lia.
Qed.

(** C3. For every size > 1 and every pixel whose squared distance [d] from
    the centre is at most [radius^2], the gradient loops leave there an opaque
    pixel whose channels are the truncations of 100 + 38*t, 150 - 107*t and
    255 - 60*t for t = sqrt d / radius (each stated without the square
    root); so red is in [100,138], green in [43,150], blue in [195,255], the
    blue endpoint (100,150,255) is taken at ratio 0 and the purple endpoint
    (138,43,195) at ratio 1. *)
Theorem gradient_interpolates size x y :
  1 < size -> 0 <= x < size -> 0 <= y < size ->
  dist2 size (x, y) <= radius size ^ 2 ->
  exists img p,
    after_gradient size = Ok img /\ getpixel img (x, y) = Ok p /\ alpha p = 255 /\
    let d := dist2 size (x, y) in
    let r := radius size in
    (100 <= red p <= 138 /\
     ((red p - 100) * r) ^ 2 <= 38 ^ 2 * d < ((red p - 100 + 1) * r) ^ 2) /\
    (43 <= green p <= 150 /\
     107 ^ 2 * d <= ((150 - green p) * r) ^ 2 /\
     (green p = 150 \/ ((150 - green p - 1) * r) ^ 2 < 107 ^ 2 * d)) /\
    (195 <= blue p <= 255 /\
     60 ^ 2 * d <= ((255 - blue p) * r) ^ 2 /\
     (blue p = 255 \/ ((255 - blue p - 1) * r) ^ 2 < 60 ^ 2 * d)) /\
    (d = 0 -> p = RGBA 100 150 255 255) /\
    (d = r ^ 2 -> p = RGBA 138 43 195 255).
Proof.
  intros Hs Hx Hy Hd.
  destruct (after_gradient_spec size Hs) as (img & Himg & Hwf & Hw & Hh & Hpx).
  pose proof (radius_pos size Hs) as Hr.
  pose proof (dist2_nonneg size (x, y)) as Hd0.
  eexists img, _. split; [exact Himg|]. split.
  { rewrite Hpx by (unfold inside; simpl; lia).
    by rewrite (gradient_at_inside size (x, y) Hr Hd). }
  split; [reflexivity|]. cbv zeta. cbn [red green blue].
  set (d := dist2 size (x, y)) in *. set (r := radius size) in *.
  rewrite Z.pow_2_r in Hd.
  destruct (floor_sqrt_div (1444 * d) r ltac:(lia) Hr) as (Hm0 & Hm1 & Hm2).
  destruct (ceil_sqrt_div (11449 * d) r 150 ltac:(lia) Hr) as (Hg0 & Hg1 & Hg2).
  destruct (ceil_sqrt_div (3600 * d) r 255 ltac:(lia) Hr) as (Hb0 & Hb1 & Hb2).
  set (m := Z.sqrt (1444 * d) / r) in *.
  set (g := (150 * r - Exact.sqrt_up (11449 * d)) / r) in *.
  set (b := (255 * r - Exact.sqrt_up (3600 * d)) / r) in *.
  rewrite !Z.pow_2_r.
  replace (100 + m - 100) with m by lia.
  assert (Hsq : 0 <= r * r) by nia.
  assert (Hm38 : m <= 38) by (apply (scaled_square_le m 38 r); lia).
  assert (Hg107 : 150 - g <= 107).
  { destruct Hg2 as [?|Hg2]; [lia|].
    assert (150 - g - 1 < 107); [|lia]. apply (scaled_square_lt _ 107 r); lia. }
  assert (Hb60 : 255 - b <= 60).
  { destruct Hb2 as [?|Hb2]; [lia|].
    assert (255 - b - 1 < 60); [|lia]. apply (scaled_square_lt _ 60 r); lia. }
  split; [split; [lia|]; split; lia|].
  split; [split; [lia|]; split; [lia|]; destruct Hg2; [left|right]; lia|].
  split; [split; [lia|]; split; [lia|]; destruct Hb2; [left|right]; lia|].
  split.
  - intros H0. rewrite H0 in *.
    assert (m <= 0) by (apply (scaled_square_le m 0 r); lia).
    pose proof (Z.square_nonneg ((150 - g - 1) * r)).
    pose proof (Z.square_nonneg ((255 - b - 1) * r)).
    f_equal; lia.
  - intros Heq. rewrite Heq in *.
    assert (38 < m + 1) by (apply (scaled_square_lt 38 (m + 1) r); lia).
    assert (107 <= 150 - g) by (apply (scaled_square_le 107 (150 - g) r); lia).
    assert (60 <= 255 - b) by (apply (scaled_square_le 60 (255 - b) r); lia).
    f_equal; lia.
Qed.

Lemma gradient_interpolates_witness :
  exists img,
    after_gradient 48 = Ok img /\
    getpixel img (24, 24) = Ok (RGBA 100 150 255 255).
Proof.
  destruct (gradient_interpolates 48 24 24) as (img & p & Himg & Hp & _ & H);
    [lia | lia | lia | vm_compute; discriminate |].
  cbv zeta in H. destruct H as (_ & _ & _ & Hblue & _).
  exists img. split; [exact Himg|]. rewrite Hp. f_equal. apply Hblue.
  vm_compute. reflexivity.
Defined.

(** ** The mask and the alpha band *)

Lemma surface_48_24_1 : surface Ideal.rasterizer 48 (24, 1) = RGBA 0 0 0 0.
Proof. vm_compute. reflexivity. Qed.

Lemma in_rounded_48_24_1 : in_rounded Ideal.rasterizer 48 (24, 1) = true.
Proof. vm_compute. reflexivity. Qed.

(** C1 as stated fails. At size 48 the pixel (24, 1) lies outside the disc
    and off every stroke, so its alpha is 0 before the mask is applied; the
    mask is 255 there; and the returned image has alpha 255 there, not
    min(0, 255) = 0. *)
Lemma putalpha_does_not_combine :
  ~ alpha_combined_with_mask Ideal.rasterizer 48 (24, 1).
Proof.
  intros Hclaim.
  destruct (create_voxmatrix_icon_spec Ideal.rasterizer 48 ltac:(lia))
    as (pre & mask & img & Hpre & Hmask & Himg & _ & _ & _ & Hpx).
  destruct (Hpx 24 1 ltac:(lia) ltac:(lia)) as (Hp & Hm & Hq).
  specialize (Hclaim _ _ _ _ _ _ Hpre Hmask Himg Hp Hm Hq).
  rewrite surface_48_24_1, in_rounded_48_24_1 in Hclaim. discriminate Hclaim.
Qed.

(** C1, amended. For every size > 1, applying the mask replaces the alpha of
    each pixel by the mask's value at that position (0 or 255), whatever the
    alpha was before, and keeps its three colour channels. *)
Theorem putalpha_replaces_alpha (R : Rasterizer) (size x y : Z) :
  1 < size -> 0 <= x < size -> 0 <= y < size ->
  exists pre mask img p m,
    before_mask R size = Ok pre /\ rounded_mask R size = Ok mask /\
    create_voxmatrix_icon R size = Ok img /\
    getpixel pre (x, y) = Ok p /\ getpixel mask (x, y) = Ok m /\
    (m = 0 \/ m = 255) /\
    getpixel img (x, y) = Ok (RGBA (red p) (green p) (blue p) m).
Proof.
  intros Hs Hx Hy.
  destruct (create_voxmatrix_icon_spec R size Hs)
    as (pre & mask & img & Hpre & Hmask & Himg & _ & _ & _ & Hpx).
  destruct (Hpx x y Hx Hy) as (Hp & Hm & Hq).
  exists pre, mask, img, (surface R size (x, y)),
    (if in_rounded R size (x, y) then 255 else 0).
  do 5 (split; [done|]). split; [|done].
  destruct (in_rounded R size (x, y)); [by right|by left].
Qed.

Lemma putalpha_replaces_alpha_witness :
  exists pre mask img p m,
    before_mask Ideal.rasterizer 48 = Ok pre /\
    rounded_mask Ideal.rasterizer 48 = Ok mask /\
    create_voxmatrix_icon Ideal.rasterizer 48 = Ok img /\
    getpixel pre (24, 1) = Ok p /\ getpixel mask (24, 1) = Ok m /\
    (m = 0 \/ m = 255) /\
    getpixel img (24, 1) = Ok (RGBA (red p) (green p) (blue p) m).
Proof. apply (putalpha_replaces_alpha Ideal.rasterizer 48 24 1); lia. Defined.

Lemma surface_48_8_24 : surface Ideal.rasterizer 48 (8, 24) = grid_color.
Proof. vm_compute. reflexivity. Qed.

(** C2 as stated fails. At size 48 the pixel (8, 24) is within the radius of
    the centre and lies on a grid line; drawing the grid overwrote it with
    the grid colour, alpha included, so its alpha before the mask is 30. *)
Lemma grid_pixel_in_disc_not_opaque :
  exists pre p,
    before_mask Ideal.rasterizer 48 = Ok pre /\
    dist2 48 (8, 24) <= radius 48 ^ 2 /\
    getpixel pre (8, 24) = Ok p /\ alpha p = 30 /\ alpha p <> 255.
Proof.
  destruct (before_mask_spec Ideal.rasterizer 48 ltac:(lia))
    as (pre & Hpre & _ & Hw & Hh & Hpx).
  exists pre, grid_color. split; [exact Hpre|].
  split; [vm_compute; discriminate|].
  split; [|split; [reflexivity|discriminate]].
  rewrite Hpx by (unfold inside; rewrite Hw, Hh; simpl; lia).
  rewrite surface_48_8_24. reflexivity.
Qed.

(** C2, amended. For every size > 1 and every pixel within the radius of the
    centre, the alpha right before the mask is applied is that of the last
    thing painted there: 100 under a glow stroke, else 255 under a stroke of
    the V, else 30 under a grid line, else 255 (the gradient). *)
Theorem alpha_before_mask (R : Rasterizer) (size x y : Z) :
  1 < size -> 0 <= x < size -> 0 <= y < size ->
  dist2 size (x, y) <= radius size ^ 2 ->
  exists pre p,
    before_mask R size = Ok pre /\ getpixel pre (x, y) = Ok p /\
    alpha p =
      if on_v R size (glow_thickness size) (x, y) then 100
      else if on_v R size (v_thickness size) (x, y) then 255
      else if on_grid R size (x, y) then 30
      else 255.
Proof.
  intros Hs Hx Hy Hd.
  destruct (before_mask_spec R size Hs) as (pre & Hpre & _ & Hw & Hh & Hpx).
  exists pre, (surface R size (x, y)). split; [done|].
  split; [apply Hpx; unfold inside; rewrite Hw, Hh; simpl; lia|].
  unfold surface.
  rewrite (gradient_at_inside size (x, y) (radius_pos size Hs) Hd).
  by repeat case_match.
Qed.

Lemma alpha_before_mask_witness :
  exists pre p,
    before_mask Ideal.rasterizer 48 = Ok pre /\ getpixel pre (8, 24) = Ok p /\
    alpha p = 30.
Proof.
  destruct (alpha_before_mask Ideal.rasterizer 48 8 24) as (pre & p & Hpre & Hp & Ha);
    [lia | lia | lia | vm_compute; discriminate |].
  exists pre, p. split; [exact Hpre|]. split; [exact Hp|].
  rewrite Ha. vm_compute. reflexivity.
Defined.

(** C6. For every size > 1 the alpha of every pixel of the returned image is
    the mask: 255 inside the rounded rectangle of corner radius size // 8
    and 0 outside, whatever was drawn; and a pixel inside the rounded
    rectangle, outside the disc and off every grid, glyph and glow stroke is
    opaque black. *)
Theorem alpha_is_the_mask (R : Rasterizer) (size x y : Z) :
  1 < size -> 0 <= x < size -> 0 <= y < size ->
  exists img p,
    create_voxmatrix_icon R size = Ok img /\ getpixel img (x, y) = Ok p /\
    alpha p = (if in_rounded R size (x, y) then 255 else 0) /\
    (in_rounded R size (x, y) = true ->
     radius size ^ 2 < dist2 size (x, y) ->
     on_grid R size (x, y) = false ->
     on_v R size (v_thickness size) (x, y) = false ->
     on_v R size (glow_thickness size) (x, y) = false ->
     p = RGBA 0 0 0 255).
Proof.
  intros Hs Hx Hy.
  destruct (create_voxmatrix_icon_spec R size Hs)
    as (pre & mask & img & _ & _ & Himg & _ & _ & _ & Hpx).
  destruct (Hpx x y Hx Hy) as (_ & _ & Hq).
  eexists img, _. split; [exact Himg|]. split; [exact Hq|].
  split; [reflexivity|].
  intros Hin Hout Hgrid Hv Hglow. rewrite Hin. unfold surface.
  rewrite Hglow, Hv, Hgrid.
  rewrite (gradient_at_outside size (x, y) (radius_nonneg size Hs) Hout).
  reflexivity.
Qed.

Lemma alpha_is_the_mask_witness :
  exists img,
    create_voxmatrix_icon Ideal.rasterizer 48 = Ok img /\
    getpixel img (24, 1) = Ok (RGBA 0 0 0 255).
Proof.
  destruct (alpha_is_the_mask Ideal.rasterizer 48 24 1) as (img & p & Himg & Hp & _ & Hblack);
    [lia..|].
  exists img. split; [exact Himg|].
  rewrite Hp. f_equal. apply Hblack; vm_compute; reflexivity.
Defined.

(** C7. For every size > 1, every pixel outside the rounded rectangle of the
    mask has alpha 0 in the returned image, whatever its pixel was before the
    mask. *)
Theorem outside_mask_transparent (R : Rasterizer) (size x y : Z) :
  1 < size -> 0 <= x < size -> 0 <= y < size ->
  in_rounded R size (x, y) = false ->
  exists pre img p q,
    before_mask R size = Ok pre /\ getpixel pre (x, y) = Ok p /\
    create_voxmatrix_icon R size = Ok img /\ getpixel img (x, y) = Ok q /\
    alpha q = 0 /\ red q = red p /\ green q = green p /\ blue q = blue p.
Proof.
  intros Hs Hx Hy Hout.
  destruct (create_voxmatrix_icon_spec R size Hs)
    as (pre & mask & img & Hpre & _ & Himg & _ & _ & _ & Hpx).
  destruct (Hpx x y Hx Hy) as (Hp & _ & Hq).
  eexists pre, img, _, _. split; [exact Hpre|]. split; [exact Hp|].
  split; [exact Himg|]. split; [exact Hq|].
  rewrite Hout. by cbn.
Qed.

Lemma outside_mask_transparent_witness :
  exists pre img p q,
    before_mask Ideal.rasterizer 48 = Ok pre /\ getpixel pre (0, 0) = Ok p /\
    create_voxmatrix_icon Ideal.rasterizer 48 = Ok img /\
    getpixel img (0, 0) = Ok q /\
    alpha q = 0 /\ red q = red p /\ green q = green p /\ blue q = blue p.
Proof.
  apply (outside_mask_transparent Ideal.rasterizer 48 0 0); [lia..|].
  vm_compute. reflexivity.
Defined.

(** ** Which sizes render *)

(** C10. With size 1 the padding and the radius are 0, the centre pixel
    passes the test dist <= radius, and the renderer raises
    ZeroDivisionError; so some size > 0 makes it fail, while every size > 1
    has a positive radius and makes it return an image. *)
Theorem size_one_divides_by_zero (R : Rasterizer) :
  (padding 1 = 0 /\ radius 1 = 0 /\ center 1 = 0 /\
   Exact.leb (Exact.sqrt (dist2 1 (0, 0))) (radius 1) = true) /\
  create_voxmatrix_icon R 1 = Raise ZeroDivisionError /\
  (exists size, 0 < size /\ create_voxmatrix_icon R size = Raise ZeroDivisionError) /\
  (forall size, 1 < size ->
     0 < radius size /\ exists img, create_voxmatrix_icon R size = Ok img).
Proof.
  assert (H1 : create_voxmatrix_icon R 1 = Raise ZeroDivisionError)
    by (vm_compute; reflexivity).
  split; [by vm_compute|]. split; [exact H1|].
  split; [exists 1; split; [lia|exact H1]|].
  intros size Hs. split; [by apply radius_pos|].
  destruct (create_voxmatrix_icon_spec R size Hs) as (_ & _ & img & _ & _ & Himg & _).
  by exists img.
Qed.

(** ** The padding is truncated *)

(** C4 as stated fails. For size 48 the code computes padding 4 where
    rounding to the nearest integer gives 5, and for size 96 it computes 9
    where rounding gives 10. *)
Lemma padding_truncates :
  padding 48 = 4 /\ padding_as_specified 48 = 5 /\
  padding 96 = 9 /\ padding_as_specified 96 = 10 /\
  padding 48 <> padding_as_specified 48.
Proof. vm_compute. repeat split; discriminate. Qed.

(** C4, amended. For every positive size (below 2^52) the padding is
    int(size * 0.1), the product truncated toward zero, which is the floor of
    size / 10: 4 for size 48 and 9 for size 96. *)
Theorem padding_is_floor (size : Z) :
  0 < size < 2 ^ 52 ->
  padding size = size / 10 /\ padding 48 = 4 /\ padding 96 = 9.
Proof.
  intros Hs. split; [apply padding_floor; lia|]. split; vm_compute; reflexivity.
Qed.

Lemma padding_is_floor_witness :
  padding 48 = 48 / 10 /\ padding 48 = 4 /\ padding 96 = 9.
Proof. apply (padding_is_floor 48). vm_compute. split; reflexivity. Defined.

(** ** Rendering at size 48 *)

Lemma surface_48_24_24 : surface Ideal.rasterizer 48 (24, 24) = glow_color.
Proof. vm_compute. reflexivity. Qed.

Lemma in_rounded_48_24_24 : in_rounded Ideal.rasterizer 48 (24, 24) = true.
Proof. vm_compute. reflexivity. Qed.

(** C5 as stated fails. At size 48 the centre pixel (24, 24) of the returned
    image is (100, 200, 255, 255), the glow colour and no colour of the
    gradient: its green channel is above the gradient's range [43, 150] and
    50 away from the blue endpoint's, so the pixel is not within any
    tolerance below 50 of (100, 150, 255). *)
Lemma centre_pixel_not_gradient_blue :
  exists img p,
    create_voxmatrix_icon Ideal.rasterizer 48 = Ok img /\
    getpixel img (24, 24) = Ok p /\ p = RGBA 100 200 255 255 /\
    150 < green p /\
    forall tol, tol < 50 -> ~ close_to tol p blue_endpoint.
Proof.
  destruct (create_voxmatrix_icon_spec Ideal.rasterizer 48 ltac:(lia))
    as (pre & mask & img & _ & _ & Himg & _ & _ & _ & Hpx).
  destruct (Hpx 24 24 ltac:(lia) ltac:(lia)) as (_ & _ & Hq).
  rewrite surface_48_24_24, in_rounded_48_24_24 in Hq.
  eexists img, _. split; [exact Himg|]. split; [exact Hq|].
  split; [reflexivity|]. split; [reflexivity|].
  intros tol Htol (_ & Hg & _). cbn in Hg. lia.
Qed.

Lemma grid_steps_48 :
  range3 (padding 48) (48 - padding 48) (grid_spacing 48)
  = [4; 8; 12; 16; 20; 24; 28; 32; 36; 40].
Proof. vm_compute. reflexivity. Qed.

(** C5, amended. Rendering with size 48 yields a 48x48 image whose centre
    pixel (24, 24) has alpha 255 and the colour of the last stroke painted
    over it, white (grid line or V) or the glow's (100, 200, 255), not the
    gradient's; and whose corner pixel (0, 0) has alpha 0. This holds for
    every rasterizer that puts (24, 24) on the vertical line from (24, 4) to
    (24, 44), and (24, 24) but not (0, 0) in the rounded rectangle. *)
Theorem render_48 (R : Rasterizer) :
  line_px R (24, 4) (24, 44) 1 (24, 24) = true ->
  rounded_rectangle_px R (0, 0, 48, 48) 6 (24, 24) = true ->
  rounded_rectangle_px R (0, 0, 48, 48) 6 (0, 0) = false ->
  exists img p q,
    create_voxmatrix_icon R 48 = Ok img /\
    width img = 48 /\ height img = 48 /\ length (data img) = 2304%nat /\
    getpixel img (24, 24) = Ok p /\ alpha p = 255 /\
    ((red p, green p, blue p) = (255, 255, 255) \/
     (red p, green p, blue p) = (100, 200, 255)) /\
    getpixel img (0, 0) = Ok q /\ alpha q = 0.
Proof.
  intros Hgrid Hin Hout.
  destruct (create_voxmatrix_icon_spec R 48 ltac:(lia))
    as (pre & mask & img & _ & _ & Himg & Hwf & Hw & Hh & Hpx).
  destruct (Hpx 24 24 ltac:(lia) ltac:(lia)) as (_ & _ & Hp).
  destruct (Hpx 0 0 ltac:(lia) ltac:(lia)) as (_ & _ & Hq).
  assert (Hg : on_grid R 48 (24, 24) = true).
  { unfold on_grid. rewrite grid_steps_48. apply existsb_exists. exists 24.
    split; [simpl; tauto|].
    unfold on_grid_line. replace (padding 48) with 4 by (vm_compute; reflexivity).
    change (48 - 4) with 44. by rewrite Hgrid. }
  unfold in_rounded in Hp, Hq. change (corner_radius 48) with 6 in Hp, Hq.
  rewrite Hin in Hp. rewrite Hout in Hq.
  eexists img, _, _. split; [exact Himg|]. split; [exact Hw|]. split; [exact Hh|].
  split. { destruct Hwf as (_ & _ & ->). by rewrite Hw, Hh. }
  split; [exact Hp|]. split; [reflexivity|].
  split; [|split; [exact Hq|reflexivity]].
  cbn [red green blue]. unfold surface. rewrite Hg.
  destruct (on_v R 48 (glow_thickness 48) (24, 24)); [by right|].
  destruct (on_v R 48 (v_thickness 48) (24, 24)); by left.
Qed.

Lemma render_48_witness :
  exists img p q,
    create_voxmatrix_icon Ideal.rasterizer 48 = Ok img /\
    width img = 48 /\ height img = 48 /\ length (data img) = 2304%nat /\
    getpixel img (24, 24) = Ok p /\ alpha p = 255 /\
    ((red p, green p, blue p) = (255, 255, 255) \/
     (red p, green p, blue p) = (100, 200, 255)) /\
    getpixel img (0, 0) = Ok q /\ alpha q = 0.
Proof. apply (render_48 Ideal.rasterizer); vm_compute; reflexivity. Defined.

(** ** The batch driver *)

Lemma main_entry_ok (R : Rasterizer) folder size icon :
  create_voxmatrix_icon R size = Ok icon ->
  main_entry R (folder, size) =
    ([MakeDirs (path_join base_path ("mipmap-" +:+ folder)) true;
      Save (path_join (path_join base_path ("mipmap-" +:+ folder)) "ic_launcher.png")
        "PNG" icon;
      Print ("Created " +:+ folder +:+ " icon (" +:+ pretty size +:+ "x"
             +:+ pretty size +:+ "): "
             +:+ path_join (path_join base_path ("mipmap-" +:+ folder)) "ic_launcher.png")],
     Ok tt).
Proof. intros H. unfold main_entry. rewrite H. reflexivity. Qed.

Lemma create_voxmatrix_icon_size (R : Rasterizer) size :
  1 < size ->
  exists img, create_voxmatrix_icon R size = Ok img /\
    width img = size /\ height img = size /\
    length (data img) = Z.to_nat (size * size).
Proof.
  intros Hs.
  destruct (create_voxmatrix_icon_spec R size Hs)
    as (_ & _ & img & _ & _ & Himg & Hwf & Hw & Hh & _).
  exists img. do 3 (split; [done|]). destruct Hwf as (_ & _ & ->). by rewrite Hw, Hh.
Qed.

Lemma run_print s rest fs : run (Print s :: rest) fs = run rest fs.
Proof. reflexivity. Qed.

(** The run of the driver, once the five icons are known. *)
Lemma main_trace (R : Rasterizer) i48 i72 i96 i144 i192 :
  create_voxmatrix_icon R 48 = Ok i48 -> create_voxmatrix_icon R 72 = Ok i72 ->
  create_voxmatrix_icon R 96 = Ok i96 -> create_voxmatrix_icon R 144 = Ok i144 ->
  create_voxmatrix_icon R 192 = Ok i192 ->
  main R = (five_icon_trace i48 i72 i96 i144 i192, Ok tt).
Proof.
  intros H48 H72 H96 H144 H192. unfold main, ICON_SIZES. cbn [io_for].
  rewrite (main_entry_ok R "mdpi" 48 i48 H48), (main_entry_ok R "hdpi" 72 i72 H72),
    (main_entry_ok R "xhdpi" 96 i96 H96), (main_entry_ok R "xxhdpi" 144 i144 H144),
    (main_entry_ok R "xxxhdpi" 192 i192 H192).
  clear. vm_compute. reflexivity.
Qed.

(** C8. The driver goes through the five entries mdpi 48, hdpi 72, xhdpi 96,
    xxhdpi 144, xxxhdpi 192 in that order and ends normally; for each entry
    it renders the icon of that size, calls os.makedirs on
    <base_path>/mipmap-<label> with exist_ok=True, so that the directory is
    made if absent, and saves the icon, of those dimensions, as PNG at
    <base_path>/mipmap-<label>/ic_launcher.png. *)
Theorem main_writes_five_icons (R : Rasterizer) :
  exists i48 i72 i96 i144 i192,
    (create_voxmatrix_icon R 48 = Ok i48 /\ width i48 = 48 /\ height i48 = 48) /\
    (create_voxmatrix_icon R 72 = Ok i72 /\ width i72 = 72 /\ height i72 = 72) /\
    (create_voxmatrix_icon R 96 = Ok i96 /\ width i96 = 96 /\ height i96 = 96) /\
    (create_voxmatrix_icon R 144 = Ok i144 /\ width i144 = 144 /\ height i144 = 144) /\
    (create_voxmatrix_icon R 192 = Ok i192 /\ width i192 = 192 /\ height i192 = 192) /\
    main R =
      ([Print "Generating VoxMatrix app icons...";
        MakeDirs (icon_dir "mdpi") true;
        Save (icon_file "mdpi") "PNG" i48;
        Print ("Created mdpi icon (48x48): " +:+ icon_file "mdpi");
        MakeDirs (icon_dir "hdpi") true;
        Save (icon_file "hdpi") "PNG" i72;
        Print ("Created hdpi icon (72x72): " +:+ icon_file "hdpi");
        MakeDirs (icon_dir "xhdpi") true;
        Save (icon_file "xhdpi") "PNG" i96;
        Print ("Created xhdpi icon (96x96): " +:+ icon_file "xhdpi");
        MakeDirs (icon_dir "xxhdpi") true;
        Save (icon_file "xxhdpi") "PNG" i144;
        Print ("Created xxhdpi icon (144x144): " +:+ icon_file "xxhdpi");
        MakeDirs (icon_dir "xxxhdpi") true;
        Save (icon_file "xxxhdpi") "PNG" i192;
        Print ("Created xxxhdpi icon (192x192): " +:+ icon_file "xxxhdpi");
        Print (newline +:+ "Icon generation complete!");
        Print "Icons saved to: app/android/app/src/main/res/mipmap-*/"],
       Ok tt).
Proof.
  destruct (create_voxmatrix_icon_size R 48 ltac:(lia)) as (i48 & H48 & Hw48 & Hh48 & _).
  destruct (create_voxmatrix_icon_size R 72 ltac:(lia)) as (i72 & H72 & Hw72 & Hh72 & _).
  destruct (create_voxmatrix_icon_size R 96 ltac:(lia)) as (i96 & H96 & Hw96 & Hh96 & _).
  destruct (create_voxmatrix_icon_size R 144 ltac:(lia)) as (i144 & H144 & Hw144 & Hh144 & _).
  destruct (create_voxmatrix_icon_size R 192 ltac:(lia)) as (i192 & H192 & Hw192 & Hh192 & _).
  exists i48, i72, i96, i144, i192.
  split; [exact (conj H48 (conj Hw48 Hh48))|].
  split; [exact (conj H72 (conj Hw72 Hh72))|].
  split; [exact (conj H96 (conj Hw96 Hh96))|].
  split; [exact (conj H144 (conj Hw144 Hh144))|].
  split; [exact (conj H192 (conj Hw192 Hh192))|].
  exact (main_trace R i48 i72 i96 i144 i192 H48 H72 H96 H144 H192).
Qed.

(** ** Binary64 against the exact reading *)

(** What the check establishes: every pixel of the image is covered. *)
Lemma binary64_agrees_sound size :
  binary64_agrees size = true ->
  (Binary64.padding size = padding size /\
   Binary64.v_top_y size = v_top_y size /\
   Binary64.v_bottom_y size = v_bottom_y size /\
   Binary64.v_left_x size = v_left_x size /\
   Binary64.v_right_x size = v_right_x size) /\
  forall x y, 0 <= x < size -> 0 <= y < size ->
    Binary64.gradient_rgb (dist2 size (x, y)) (radius size)
    = gradient_rgb (dist2 size (x, y)) (radius size).
Proof.
  unfold binary64_agrees. rewrite !andb_true_iff, !Z.eqb_eq.
  intros [Hscal Hall]. split; [tauto|].
  intros x y Hx Hy. rewrite forallb_forall in Hall.
  assert (Hc : forall v, 0 <= v < size -> 0 <= Z.abs (v - center size) <= center size).
  { intros v Hv. unfold center.
    pose proof (Z.div_mod size 2 ltac:(lia)). pose proof (Z.mod_pos_bound size 2 ltac:(lia)).
    lia. }
  set (a := Z.abs (x - center size)). set (b := Z.abs (y - center size)).
  assert (Hd : dist2 size (x, y) = Z.min a b ^ 2 + Z.max a b ^ 2).
  { unfold dist2, a, b. cbn [fst snd]. rewrite !Z.pow_2_r.
    pose proof (Z.abs_square (x - center size)).
    pose proof (Z.abs_square (y - center size)).
    destruct (Z.le_ge_cases (Z.abs (x - center size)) (Z.abs (y - center size)));
      [rewrite Z.min_l, Z.max_r by lia | rewrite Z.min_r, Z.max_l by lia]; lia. }
  rewrite Hd.
  pose proof (Hc x Hx). pose proof (Hc y Hy).
  assert (Hmax : In (Z.max a b) (seqZ 0 (center size + 1)))
    by (apply list_elem_of_In, elem_of_seqZ; subst a b; lia).
  assert (Hmin : In (Z.min a b) (seqZ 0 (Z.max a b + 1)))
    by (apply list_elem_of_In, elem_of_seqZ; subst a b; lia).
  pose proof (Hall _ Hmax) as Hrow. rewrite forallb_forall in Hrow.
  pose proof (Hrow _ Hmin) as Heq. by apply bool_decide_eq_true in Heq.
Qed.

(** On every size of [ICON_SIZES], the binary64 evaluation of the scaled
    lengths, of the test [dist <= radius] and of the three channels gives, at
    every pixel, what the model computes. *)
Lemma binary64_agrees_on_ICON_SIZES label size :
  (label, size) ∈ ICON_SIZES ->
  (Binary64.padding size = padding size /\
   Binary64.v_top_y size = v_top_y size /\
   Binary64.v_bottom_y size = v_bottom_y size /\
   Binary64.v_left_x size = v_left_x size /\
   Binary64.v_right_x size = v_right_x size) /\
  forall x y, 0 <= x < size -> 0 <= y < size ->
    Binary64.gradient_rgb (dist2 size (x, y)) (radius size)
    = gradient_rgb (dist2 size (x, y)) (radius size).
Proof.
  intros Hin. apply binary64_agrees_sound.
  assert (Hall : forallb binary64_agrees (ICON_SIZES.*2) = true)
    by (vm_compute; reflexivity).
  rewrite forallb_forall in Hall. apply Hall.
  apply list_elem_of_In, list_elem_of_fmap. by exists (label, size).
Qed.

(** The integer model of [int(size * c)] gives what the kernel's binary64
    multiplication gives, for the five constants of the script, on every
    size up to 1024 and on some sizes that are not binary64 numbers. *)
Lemma int_mul_is_binary64 :
  forallb int_mul_checks
    (seqZ 0 1025 ++ [2 ^ 53 + 1; 2 ^ 53 + 3; 2 ^ 54 + 2; 2 ^ 54 + 6;
                     10 ^ 17 + 7; 10 ^ 18 + 1; 2 ^ 62 + 2 ^ 9; 2 ^ 62 + 2 ^ 9 + 1]) = true.
Proof. vm_compute. reflexivity. Qed.

(** ** Further properties of the renderer and the driver *)

(** For every size > 1 the renderer returns an image of exactly size x size
    pixels. *)
Theorem renders_size_by_size (R : Rasterizer) (size : Z) :
  1 < size ->
  exists img, create_voxmatrix_icon R size = Ok img /\
    width img = size /\ height img = size /\
    length (data img) = Z.to_nat (size * size).
Proof. apply create_voxmatrix_icon_size. Qed.

Lemma renders_size_by_size_witness :
  exists img, create_voxmatrix_icon Ideal.rasterizer 48 = Ok img /\
    width img = 48 /\ height img = 48 /\
    length (data img) = Z.to_nat (48 * 48).
Proof. apply (renders_size_by_size Ideal.rasterizer 48). lia. Defined.

(** For every size > 1, a pixel farther than the radius from the centre is
    still fully transparent, (0, 0, 0, 0), right after the gradient loops. *)
Theorem outside_disc_untouched (size x y : Z) :
  1 < size -> 0 <= x < size -> 0 <= y < size ->
  radius size ^ 2 < dist2 size (x, y) ->
  exists img, after_gradient size = Ok img /\
    getpixel img (x, y) = Ok (RGBA 0 0 0 0).
Proof.
  intros Hs Hx Hy Hd.
  destruct (after_gradient_spec size Hs) as (img & Himg & _ & Hw & Hh & Hpx).
  exists img. split; [exact Himg|].
  rewrite Hpx by (unfold inside; rewrite Hw, Hh; simpl; lia).
  by rewrite (gradient_at_outside size (x, y) (radius_nonneg size Hs) Hd).
Qed.

Lemma outside_disc_untouched_witness :
  exists img, after_gradient 48 = Ok img /\ getpixel img (0, 0) = Ok (RGBA 0 0 0 0).
Proof.
  apply (outside_disc_untouched 48 0 0); [lia | lia | lia |].
  vm_compute. reflexivity.
Defined.

Lemma binary64_agrees_on_ICON_SIZES_witness :
  (Binary64.padding 48 = padding 48 /\
   Binary64.v_top_y 48 = v_top_y 48 /\
   Binary64.v_bottom_y 48 = v_bottom_y 48 /\
   Binary64.v_left_x 48 = v_left_x 48 /\
   Binary64.v_right_x 48 = v_right_x 48) /\
  forall x y, 0 <= x < 48 -> 0 <= y < 48 ->
    Binary64.gradient_rgb (dist2 48 (x, y)) (radius 48)
    = gradient_rgb (dist2 48 (x, y)) (radius 48).
Proof.
  apply (binary64_agrees_on_ICON_SIZES "mdpi" 48). unfold ICON_SIZES. left.
Defined.

(** ** Sizes, channels and the order of painting *)

Lemma sqrt_up_mono a b : 0 <= a <= b -> Exact.sqrt_up a <= Exact.sqrt_up b.
Proof.
  intros [Ha Hab].
  destruct (sqrt_up_spec b ltac:(lia)) as (Hb0 & Hb1 & _).
  apply sqrt_up_le; lia.
Qed.

(** Ranges of the three channels in closed form. *)
Lemma gradient_channels d r :
  0 <= d -> 0 < r -> d <= r * r ->
  0 <= Z.sqrt (1444 * d) / r <= 38 /\
  43 <= (150 * r - Exact.sqrt_up (11449 * d)) / r <= 150 /\
  195 <= (255 * r - Exact.sqrt_up (3600 * d)) / r <= 255.
Proof.
  intros Hd Hr Hle.
  assert (H38 : Z.sqrt (1444 * d) <= 38 * r).
  { rewrite <- (Z.sqrt_square (38 * r)) by lia. apply Z.sqrt_le_mono. nia. }
  assert (H107 : Exact.sqrt_up (11449 * d) <= 107 * r) by (apply sqrt_up_le; nia).
  assert (H60 : Exact.sqrt_up (3600 * d) <= 60 * r) by (apply sqrt_up_le; nia).
  destruct (sqrt_up_spec (11449 * d) ltac:(lia)) as (Hg0 & _).
  destruct (sqrt_up_spec (3600 * d) ltac:(lia)) as (Hb0 & _).
  pose proof (Z.sqrt_nonneg (1444 * d)).
  repeat split.
  - apply Z.div_pos; lia.
  - apply Z.div_le_upper_bound; lia.
  - apply Z.div_le_lower_bound; lia.
  - apply Z.div_le_upper_bound; lia.
  - apply Z.div_le_lower_bound; lia.
  - apply Z.div_le_upper_bound; lia.
Qed.

Lemma gradient_at_Some size xy c :
  0 < radius size -> gradient_at size xy = Some c ->
  dist2 size xy <= radius size ^ 2 /\
  100 <= red c <= 138 /\ 43 <= green c <= 150 /\ 195 <= blue c <= 255 /\
  alpha c = 255.
Proof.
  intros Hr Hc. pose proof (dist2_nonneg size xy) as H0.
  destruct (Z_le_gt_dec (dist2 size xy) (radius size ^ 2)) as [Hd|Hd].
  - rewrite (gradient_at_inside size xy Hr Hd) in Hc. injection Hc as <-.
    rewrite Z.pow_2_r in Hd.
    destruct (gradient_channels _ _ H0 Hr Hd) as (? & ? & ?).
    cbn [red green blue alpha]. split; [by rewrite Z.pow_2_r|]. lia.
  - rewrite gradient_at_outside in Hc by lia. discriminate.
Qed.

Lemma surface_valid (R : Rasterizer) size xy :
  0 < radius size ->
  0 <= red (surface R size xy) <= 255 /\ 0 <= green (surface R size xy) <= 255 /\
  0 <= blue (surface R size xy) <= 255.
Proof.
  intros Hr. unfold surface.
  destruct (on_v R size (glow_thickness size) xy); [cbn; lia|].
  destruct (on_v R size (v_thickness size) xy); [cbn; lia|].
  destruct (on_grid R size xy); [cbn; lia|].
  destruct (gradient_at size xy) as [c|] eqn:Hc; [|cbn; lia].
  destruct (gradient_at_Some size xy c Hr Hc) as (_ & ? & ? & ? & _). lia.
Qed.

(** Sizes that are not positive: a negative size makes [Image.new] raise
    ValueError before anything is drawn, and size 0 gives the empty image,
    all loops being empty. *)
Theorem nonpositive_size (R : Rasterizer) (size : Z) :
  size <= 0 ->
  create_voxmatrix_icon R size =
    if size =? 0 then Ok (MkImage 0 0 []) else Raise ValueError.
Proof.
  intros Hs. destruct (Z.eqb_spec size 0) as [->|Hne].
  - vm_compute. reflexivity.
  - unfold create_voxmatrix_icon, before_mask, after_gradient, new.
    destruct (Z.ltb_spec size 0); [reflexivity|lia].
Qed.

Lemma nonpositive_size_witness :
  create_voxmatrix_icon Ideal.rasterizer (-1) = Raise ValueError.
Proof. apply (nonpositive_size Ideal.rasterizer (-1)). lia. Defined.

(** For every size > 1, the four channels of every pixel of the returned
    image are within 0..255. *)
Theorem channels_are_bytes (R : Rasterizer) (size x y : Z) :
  1 < size -> 0 <= x < size -> 0 <= y < size ->
  exists img p,
    create_voxmatrix_icon R size = Ok img /\ getpixel img (x, y) = Ok p /\
    valid_pixel p.
Proof.
  intros Hs Hx Hy.
  destruct (create_voxmatrix_icon_spec R size Hs)
    as (pre & mask & img & _ & _ & Himg & _ & _ & _ & Hpx).
  destruct (Hpx x y Hx Hy) as (_ & _ & Hq).
  eexists img, _. split; [exact Himg|]. split; [exact Hq|].
  destruct (surface_valid R size (x, y) (radius_pos size Hs)) as (Hr & Hg & Hb).
  unfold valid_pixel. cbn [red green blue alpha].
  split; [exact Hr|]. split; [exact Hg|]. split; [exact Hb|].
  destruct (in_rounded R size (x, y)); lia.
Qed.

Lemma channels_are_bytes_witness :
  exists img p,
    create_voxmatrix_icon Ideal.rasterizer 48 = Ok img /\
    getpixel img (10, 30) = Ok p /\ valid_pixel p.
Proof. apply (channels_are_bytes Ideal.rasterizer 48 10 30); lia. Defined.

(** For every size > 1, the colour of a pixel of the returned image is that
    of the last thing painted there: the glow's (100, 200, 255) under a glow
    stroke; else white under a stroke of the V or a grid line; else what the
    gradient loops left. *)
Theorem last_paint_wins (R : Rasterizer) (size x y : Z) :
  1 < size -> 0 <= x < size -> 0 <= y < size ->
  exists grad img g p,
    after_gradient size = Ok grad /\ getpixel grad (x, y) = Ok g /\
    create_voxmatrix_icon R size = Ok img /\ getpixel img (x, y) = Ok p /\
    rgb p =
      if on_v R size (glow_thickness size) (x, y) then (100, 200, 255)
      else if on_v R size (v_thickness size) (x, y) || on_grid R size (x, y)
      then (255, 255, 255)
      else rgb g.
Proof.
  intros Hs Hx Hy.
  destruct (after_gradient_spec size Hs) as (grad & Hgrad & _ & Hw & Hh & Hgpx).
  destruct (create_voxmatrix_icon_spec R size Hs)
    as (pre & mask & img & _ & _ & Himg & _ & _ & _ & Hpx).
  destruct (Hpx x y Hx Hy) as (_ & _ & Hq).
  eexists grad, img, _, _. split; [exact Hgrad|].
  split; [apply Hgpx; unfold inside; rewrite Hw, Hh; simpl; lia|].
  split; [exact Himg|]. split; [exact Hq|].
  unfold rgb, surface. cbn [red green blue].
  destruct (on_v R size (glow_thickness size) (x, y)); [reflexivity|].
  destruct (on_v R size (v_thickness size) (x, y)); [reflexivity|].
  destruct (on_grid R size (x, y)); reflexivity.
Qed.

Lemma last_paint_wins_witness :
  exists grad img g p,
    after_gradient 48 = Ok grad /\ getpixel grad (8, 24) = Ok g /\
    create_voxmatrix_icon Ideal.rasterizer 48 = Ok img /\
    getpixel img (8, 24) = Ok p /\ rgb p = (255, 255, 255).
Proof.
  destruct (last_paint_wins Ideal.rasterizer 48 8 24) as (grad & img & g & p & H1 & H2 & H3 & H4 & H5);
    [lia..|].
  exists grad, img, g, p. split; [exact H1|]. split; [exact H2|].
  split; [exact H3|]. split; [exact H4|]. rewrite H5. vm_compute. reflexivity.
Defined.

Lemma ideal_widening : widening Ideal.rasterizer.
Proof.
  intros p q w w' a Hw. cbn [line_px Ideal.rasterizer]. unfold Ideal.line_px. cbv zeta.
  destruct (_ =? 0); [done|].
  rewrite !andb_true_iff, !Z.leb_le. intros [[H1 H2] H3].
  split; [done|].
  set (len2 := _ + _) in *. set (cr := _ - _) in *.
  assert (Hl : 0 <= len2) by lia.
  assert (Hm : Z.max 1 w * Z.max 1 w <= Z.max 1 w' * Z.max 1 w')
    by (apply Z.square_le_mono_nonneg; lia).
  etrans; [exact H3|]. apply Z.mul_le_mono_nonneg_r; lia.
Qed.

(** With a rasterizer whose strokes only grow with their width, the white V
    does not show: for every size > 1 every pixel under a stroke of the V is
    also under the glow stroke painted after it, and has the glow's colour
    (100, 200, 255) in the returned image. *)
Theorem glow_covers_the_v (R : Rasterizer) (size x y : Z) :
  widening R ->
  1 < size -> 0 <= x < size -> 0 <= y < size ->
  on_v R size (v_thickness size) (x, y) = true ->
  exists img p,
    create_voxmatrix_icon R size = Ok img /\ getpixel img (x, y) = Ok p /\
    rgb p = (100, 200, 255).
Proof.
  intros HR Hs Hx Hy Hv.
  destruct (create_voxmatrix_icon_spec R size Hs)
    as (pre & mask & img & _ & _ & Himg & _ & _ & _ & Hpx).
  destruct (Hpx x y Hx Hy) as (_ & _ & Hq).
  eexists img, _. split; [exact Himg|]. split; [exact Hq|].
  assert (Hg : on_v R size (glow_thickness size) (x, y) = true).
  { unfold on_v in *. apply orb_true_iff in Hv. apply orb_true_iff.
    destruct Hv as [Hv|Hv]; [left|right];
      (eapply HR; [|exact Hv]); unfold glow_thickness; lia. }
  unfold rgb, surface. cbn [red green blue]. rewrite Hg. reflexivity.
Qed.

Lemma glow_covers_the_v_witness :
  exists img p,
    create_voxmatrix_icon Ideal.rasterizer 48 = Ok img /\
    getpixel img (20, 24) = Ok p /\ rgb p = (100, 200, 255).
Proof.
  apply (glow_covers_the_v Ideal.rasterizer 48 20 24);
    [exact ideal_widening | lia | lia | lia | vm_compute; reflexivity].
Defined.

(** The gradient is radial and monotone: for every size > 1 and two pixels
    of the disc, the one no farther from the centre has no more red, and no
    less green and blue; so pixels at the same distance have the same
    colour. *)
Theorem gradient_monotone (size x y x' y' : Z) :
  1 < size -> 0 <= x < size -> 0 <= y < size -> 0 <= x' < size -> 0 <= y' < size ->
  dist2 size (x, y) <= dist2 size (x', y') -> dist2 size (x', y') <= radius size ^ 2 ->
  exists img p p',
    after_gradient size = Ok img /\
    getpixel img (x, y) = Ok p /\ getpixel img (x', y') = Ok p' /\
    red p <= red p' /\ green p' <= green p /\ blue p' <= blue p /\
    (dist2 size (x, y) = dist2 size (x', y') -> p = p').
Proof.
  intros Hs Hx Hy Hx' Hy' Hle Hd'.
  destruct (after_gradient_spec size Hs) as (img & Himg & _ & Hw & Hh & Hpx).
  pose proof (radius_pos size Hs) as Hr.
  pose proof (dist2_nonneg size (x, y)) as H0.
  eexists img, _, _. split; [exact Himg|].
  split. { rewrite Hpx by (unfold inside; rewrite Hw, Hh; simpl; lia).
           by rewrite (gradient_at_inside size (x, y) Hr ltac:(lia)). }
  split. { rewrite Hpx by (unfold inside; rewrite Hw, Hh; simpl; lia).
           by rewrite (gradient_at_inside size (x', y') Hr Hd'). }
  cbn [red green blue].
  set (d := dist2 size (x, y)) in *. set (d' := dist2 size (x', y')) in *.
  set (r := radius size) in *.
  split.
  { apply Z.add_le_mono_l, Z.div_le_mono; [lia|]. apply Z.sqrt_le_mono. lia. }
  split.
  { apply Z.div_le_mono; [lia|].
    pose proof (sqrt_up_mono (11449 * d) (11449 * d') ltac:(lia)). lia. }
  split.
  { apply Z.div_le_mono; [lia|].
    pose proof (sqrt_up_mono (3600 * d) (3600 * d') ltac:(lia)). lia. }
  intros ->. reflexivity.
Qed.

Lemma gradient_monotone_witness :
  exists img p p',
    after_gradient 48 = Ok img /\
    getpixel img (24, 24) = Ok p /\ getpixel img (30, 20) = Ok p' /\
    red p <= red p' /\ green p' <= green p /\ blue p' <= blue p /\
    (dist2 48 (24, 24) = dist2 48 (30, 20) -> p = p').
Proof.
  apply (gradient_monotone 48 24 24 30 20); [lia..| |]; vm_compute; discriminate.
Defined.

(** ** The extent of the disc *)

Lemma center_radius size : center size = radius size + padding size.
Proof.
  unfold center, radius, icon_size.
  replace (size - padding size * 2) with (size + (- padding size) * 2) by lia.
  rewrite Z.div_add by lia. lia.
Qed.

Lemma sqrt_up_square a : 0 <= a -> Exact.sqrt_up (a * a) = a.
Proof.
  intros Ha. unfold Exact.sqrt_up. rewrite Z.sqrt_square by lia.
  by rewrite Z.eqb_refl.
Qed.

(** The colour at the rim of the disc. *)
Lemma gradient_at_rim size xy :
  0 < radius size -> dist2 size xy = radius size ^ 2 ->
  gradient_at size xy = Some (RGBA 138 43 195 255).
Proof.
  intros Hr Hd. rewrite (gradient_at_inside size xy Hr) by lia.
  rewrite Hd, Z.pow_2_r. set (r := radius size) in *.
  replace (1444 * (r * r)) with ((38 * r) * (38 * r)) by lia.
  replace (11449 * (r * r)) with ((107 * r) * (107 * r)) by lia.
  replace (3600 * (r * r)) with ((60 * r) * (60 * r)) by lia.
  rewrite Z.sqrt_square, !sqrt_up_square by lia.
  replace (150 * r - 107 * r) with (43 * r) by lia.
  replace (255 * r - 60 * r) with (195 * r) by lia.
  rewrite !Z.div_mul by lia. reflexivity.
Qed.

(** The disc keeps clear of the padding: for every size > 1 its centre is
    padding + radius, so the leftmost pixel of its horizontal diameter is at
    x = padding and has the purple end of the gradient, (138, 43, 195, 255);
    and every pixel with a coordinate below padding or above size - padding
    is left fully transparent by the gradient loops. *)
Theorem disc_extent (size : Z) :
  1 < size ->
  center size = padding size + radius size /\
  exists img,
    after_gradient size = Ok img /\
    getpixel img (padding size, center size) = Ok (RGBA 138 43 195 255) /\
    forall x y, 0 <= x < size -> 0 <= y < size ->
      x < padding size \/ size - padding size < x \/
      y < padding size \/ size - padding size < y ->
      getpixel img (x, y) = Ok (RGBA 0 0 0 0).
Proof.
  intros Hs.
  pose proof (center_radius size) as Hc.
  pose proof (radius_pos size Hs) as Hr.
  destruct (padding_bounds size ltac:(lia)) as [Hp0 _].
  assert (Hcs : center size < size).
  { unfold center. apply Z.div_lt_upper_bound; lia. }
  assert (H2c : 2 * center size <= size).
  { unfold center. pose proof (Z.div_mod size 2 ltac:(lia)).
    pose proof (Z.mod_pos_bound size 2 ltac:(lia)). lia. }
  split; [lia|].
  destruct (after_gradient_spec size Hs) as (img & Himg & _ & Hw & Hh & Hpx).
  exists img. split; [exact Himg|]. split.
  - rewrite Hpx by (unfold inside; rewrite Hw, Hh; simpl; lia).
    rewrite gradient_at_rim; [reflexivity|exact Hr|].
    unfold dist2. cbn [fst snd].
    replace (padding size - center size) with (- radius size) by lia.
    replace (center size - center size) with 0 by lia.
    rewrite !Z.pow_2_r. lia.
  - intros x y Hx Hy Hout.
    rewrite Hpx by (unfold inside; rewrite Hw, Hh; simpl; lia).
    rewrite gradient_at_outside; [reflexivity|lia|].
    unfold dist2. cbn [fst snd]. rewrite !Z.pow_2_r.
    set (r := radius size) in *. set (c := center size) in *.
    set (p := padding size) in *.
    pose proof (Z.square_nonneg (x - c)). pose proof (Z.square_nonneg (y - c)).
    assert (Hsq : forall v, v < p \/ size - p < v -> r * r < (v - c) * (v - c)).
    { intros v [Hv|Hv].
      - replace ((v - c) * (v - c)) with ((c - v) * (c - v)) by lia.
        apply Z.mul_lt_mono_nonneg; lia.
      - apply Z.mul_lt_mono_nonneg; lia. }
    destruct Hout as [Hv|[Hv|[Hv|Hv]]].
    + pose proof (Hsq x (or_introl Hv)). lia.
    + pose proof (Hsq x (or_intror Hv)). lia.
    + pose proof (Hsq y (or_introl Hv)). lia.
    + pose proof (Hsq y (or_intror Hv)). lia.
Qed.

Lemma disc_extent_witness :
  center 48 = padding 48 + radius 48 /\
  exists img,
    after_gradient 48 = Ok img /\
    getpixel img (padding 48, center 48) = Ok (RGBA 138 43 195 255) /\
    forall x y, 0 <= x < 48 -> 0 <= y < 48 ->
      x < padding 48 \/ 48 - padding 48 < x \/
      y < padding 48 \/ 48 - padding 48 < y ->
      getpixel img (x, y) = Ok (RGBA 0 0 0 0).
Proof. apply (disc_extent 48). lia. Defined.

(** ** The grid and the end points of the V *)

Lemma round53_lower n : 0 <= n -> (2 ^ 53 - 1) * n <= 2 ^ 53 * F64.round53 n.
Proof.
  intros Hn. destruct (Z_lt_le_dec n (2 ^ 53)) as [Hs|Hb].
  - rewrite round53_small; lia.
  - destruct (round53_large n Hb) as (k & Hk & [Hlo _] & _ & [Hr _]).
    rewrite Z.pow_add_r in Hlo by lia.
    change (2 ^ 52) with 4503599627370496 in Hlo.
    change (2 ^ 53) with 9007199254740992 in *.
    lia.
Qed.

(** [int(n * c)] against the exact product, for a constant with a negative
    exponent: two roundings, each within [2^-53] in relative terms, and a
    truncation. *)
Lemma int_mul_bounds n (c : F64.const) :
  0 <= n -> 0 < F64.mant c -> F64.expo c < 0 ->
  let v := F64.int_mul n c in
  let t := 2 ^ (- F64.expo c) in
  let nm := n * F64.mant c in
  0 <= v /\
  2 ^ 106 * (t * v) <= (2 ^ 53 + 1) * (2 ^ 53 + 1) * nm /\
  (2 ^ 53 - 1) * (2 ^ 53 - 1) * nm < 2 ^ 106 * (t * (v + 1)).
Proof.
  destruct c as [m e]. cbn [F64.mant F64.expo]. intros Hn Hm He.
  unfold F64.int_mul. cbn [F64.mant F64.expo].
  destruct (Z.leb_spec 0 e) as [|_]; [lia|]. cbv zeta.
  pose proof (round53_nonneg n Hn) as Ha0.
  pose proof (round53_upper n Hn) as Hau.
  pose proof (round53_lower n Hn) as Hal.
  set (a := F64.round53 n) in *.
  assert (Hp0 : 0 <= a * m) by nia.
  pose proof (round53_nonneg _ Hp0) as Hb0.
  pose proof (round53_upper _ Hp0) as Hbu.
  pose proof (round53_lower _ Hp0) as Hbl.
  set (b := F64.round53 (a * m)) in *.
  assert (Ht : 0 < 2 ^ (- e)) by (apply Z.pow_pos_nonneg; lia).
  pose proof (Z.div_mod b (2 ^ (- e)) ltac:(lia)) as Hdm.
  pose proof (Z.mod_pos_bound b (2 ^ (- e)) Ht) as Hmod.
  set (t := 2 ^ (- e)) in *. set (v := b / t) in *.
  assert (Hv0 : 0 <= v) by (apply Z.div_pos; lia).
  change (2 ^ 106) with (2 ^ 53 * 2 ^ 53).
  change (2 ^ 53) with 9007199254740992 in *.
  split; [exact Hv0|].
  assert (Hnm : 0 <= n * m) by nia.
  set (am := a * m) in *. set (nm := n * m) in *.
  assert (Hamu : 9007199254740992 * am <= (9007199254740992 + 1) * nm)
    by (subst am nm; nia).
  assert (Haml : (9007199254740992 - 1) * nm <= 9007199254740992 * am)
    by (subst am nm; nia).
  set (tv := t * v) in *.
  assert (Htv : tv <= b < tv + t) by (subst tv; lia).
  replace (t * (v + 1)) with (tv + t) by (subst tv; lia).
  clearbody tv am nm b. clear -Htv Hamu Haml Hbu Hbl Hnm. lia.
Qed.

Lemma elem_of_range3 start stop step i :
  0 < step ->
  i ∈ range3 start stop step <->
  exists k, 0 <= k /\ i = start + k * step /\ i < stop.
Proof.
  intros Hstep. unfold range3. rewrite list_elem_of_fmap.
  assert (Hk : forall k, k < (stop - start + step - 1) / step <-> start + k * step < stop).
  { intros k.
    pose proof (Z.div_mod (stop - start + step - 1) step ltac:(lia)) as Hdm.
    pose proof (Z.mod_pos_bound (stop - start + step - 1) step Hstep) as Hmod.
    set (q := (stop - start + step - 1) / step) in *. split; intros H; nia. }
  split.
  - intros (k & -> & Hin). apply elem_of_seqZ in Hin. exists k.
    split; [lia|]. split; [reflexivity|]. apply Hk. lia.
  - intros (k & Hk0 & -> & Hlt). exists k. split; [reflexivity|].
    apply elem_of_seqZ. split; [lia|]. apply Hk in Hlt. lia.
Qed.

Lemma on_grid_iff (R : Rasterizer) (size : Z) (xy : Z * Z) :
  on_grid R size xy = true <->
  exists k, 0 <= k /\
    padding size + k * grid_spacing size < size - padding size /\
    on_grid_line R size (padding size + k * grid_spacing size) xy = true.
Proof.
  assert (Hsp : 4 <= grid_spacing size) by (unfold grid_spacing; lia).
  unfold on_grid. rewrite existsb_exists. split.
  - intros (i & Hi & Hon). apply list_elem_of_In, elem_of_range3 in Hi; [|lia].
    destruct Hi as (k & Hk & -> & Hlt). by exists k.
  - intros (k & Hk & Hlt & Hon). eexists. split; [|exact Hon].
    apply list_elem_of_In, elem_of_range3; [lia|]. by exists k.
Qed.

Lemma first_grid_line size : 1 < size -> padding size < size - padding size.
Proof.
  intros Hs. pose proof (radius_pos size Hs) as Hr. unfold radius, icon_size in Hr.
  assert (2 <= size - padding size * 2); [|lia].
  destruct (Z_lt_le_dec (size - padding size * 2) 2) as [Hlt|]; [|done].
  exfalso. assert ((size - padding size * 2) / 2 < 1); [|lia].
  apply Z.div_lt_upper_bound; lia.
Qed.

(** Where the grid loop paints. For every size > 1, drawing the grid over
    the image left by the gradient loops puts the grid colour
    (255, 255, 255, 30) at a pixel if the rasterizer puts it on the vertical
    line from (i, padding) to (i, size - padding) or on the horizontal line
    from (padding, i) to (size - padding, i), both of width 1, for some
    i = padding + k * grid_spacing, k = 0, 1, ..., below size - padding; and
    leaves the pixel as it was if it is on none of these lines. The spacing
    is at least 4 and the loop runs at least once, at i = padding. *)
Theorem grid_lines (R : Rasterizer) (size x y : Z) :
  1 < size -> 0 <= x < size -> 0 <= y < size ->
  exists grad p,
    after_gradient size = Ok grad /\
    getpixel (draw_grid R size grad) (x, y) = Ok p /\
    ((exists k, 0 <= k /\
        padding size + k * grid_spacing size < size - padding size /\
        (line_px R (padding size + k * grid_spacing size, padding size)
           (padding size + k * grid_spacing size, size - padding size) 1 (x, y) = true \/
         line_px R (padding size, padding size + k * grid_spacing size)
           (size - padding size, padding size + k * grid_spacing size) 1 (x, y) = true)) ->
     p = grid_color) /\
    ((forall k, 0 <= k ->
        padding size + k * grid_spacing size < size - padding size ->
        line_px R (padding size + k * grid_spacing size, padding size)
          (padding size + k * grid_spacing size, size - padding size) 1 (x, y) = false /\
        line_px R (padding size, padding size + k * grid_spacing size)
          (size - padding size, padding size + k * grid_spacing size) 1 (x, y) = false) ->
     getpixel grad (x, y) = Ok p) /\
    4 <= grid_spacing size /\ padding size < size - padding size.
Proof.
  intros Hs Hx Hy.
  destruct (after_gradient_spec size Hs) as (grad & Hgrad & Hwf & Hw & Hh & Hpx).
  destruct (draw_grid_spec R size grad Hwf) as (_ & _ & _ & Hgrid).
  assert (Hin : inside grad (x, y)) by (unfold inside; rewrite Hw, Hh; simpl; lia).
  specialize (Hgrid (x, y) Hin).
  destruct (on_grid R size (x, y)) eqn:Hon; rewrite ?Hon in Hgrid.
  - exists grad, grid_color. split; [exact Hgrad|]. split; [exact Hgrid|].
    split; [reflexivity|]. split.
    + intros Hnone. exfalso. apply on_grid_iff in Hon as (k & Hk & Hlt & Hline).
      destruct (Hnone k Hk Hlt) as [Hv Hh']. unfold on_grid_line in Hline.
      rewrite Hv, Hh' in Hline. discriminate Hline.
    + split; [unfold grid_spacing; lia | by apply first_grid_line].
  - rewrite (Hpx (x, y) Hin) in Hgrid. eexists grad, _.
    split; [exact Hgrad|]. split; [exact Hgrid|]. split.
    + intros (k & Hk & Hlt & Hline). exfalso.
      assert (Htrue : on_grid R size (x, y) = true).
      { apply on_grid_iff. exists k. split; [exact Hk|]. split; [exact Hlt|].
        unfold on_grid_line. apply orb_true_iff. exact Hline. }
      rewrite Hon in Htrue. discriminate Htrue.
    + split; [intros _; exact (Hpx (x, y) Hin)|].
      split; [unfold grid_spacing; lia | by apply first_grid_line].
Qed.

Lemma grid_lines_witness :
  exists grad,
    after_gradient 48 = Ok grad /\
    getpixel (draw_grid Ideal.rasterizer 48 grad) (8, 24) = Ok grid_color.
Proof.
  destruct (grid_lines Ideal.rasterizer 48 8 24) as (grad & p & Hgrad & Hp & Hon & _);
    [lia..|].
  exists grad. split; [exact Hgrad|]. rewrite Hp. f_equal. apply Hon.
  exists 1. split; [lia|]. vm_compute. split; [reflexivity|]. left. reflexivity.
Defined.

(** The V has its shape at every size: for every size >= 0 its end points
    lie in 0..size with top above bottom and the apex between the arms, and
    for every size >= 7 the end points are pixels of the image, the top is
    strictly above the bottom and the apex strictly between the two arms. *)
Theorem v_end_points (size : Z) :
  0 <= size ->
  (0 <= v_top_y size <= v_bottom_y size /\ v_bottom_y size <= size /\
   0 <= v_left_x size <= v_center_x size /\
   v_center_x size <= v_right_x size <= size) /\
  (7 <= size ->
   v_top_y size < v_bottom_y size < size /\
   v_left_x size < v_center_x size < v_right_x size /\ v_right_x size < size).
Proof.
  intros Hs.
  pose proof (int_mul_bounds size F64.c_0_25 Hs ltac:(reflexivity) ltac:(reflexivity)) as Ht.
  pose proof (int_mul_bounds size F64.c_0_75 Hs ltac:(reflexivity) ltac:(reflexivity)) as Hb.
  pose proof (int_mul_bounds size F64.c_0_35 Hs ltac:(reflexivity) ltac:(reflexivity)) as Hl.
  pose proof (int_mul_bounds size F64.c_0_65 Hs ltac:(reflexivity) ltac:(reflexivity)) as Hr.
  cbv zeta in Ht, Hb, Hl, Hr.
  fold (v_top_y size) in Ht. fold (v_bottom_y size) in Hb.
  fold (v_left_x size) in Hl. fold (v_right_x size) in Hr.
  cbn [F64.mant F64.expo F64.c_0_25 F64.c_0_75 F64.c_0_35 F64.c_0_65 Z.opp] in Ht, Hb, Hl, Hr.
  unfold v_center_x.
  pose proof (Z.div_mod size 2 ltac:(lia)) as Hdm.
  pose proof (Z.mod_pos_bound size 2 ltac:(lia)) as Hmod.
  set (c := size / 2) in *.
  set (t := v_top_y size) in *. set (b := v_bottom_y size) in *.
  set (l := v_left_x size) in *. set (r := v_right_x size) in *.
  change (2 ^ 106) with 81129638414606681695789005144064 in *.
  change (2 ^ 53) with 9007199254740992 in *.
  change (2 ^ (- (-2))) with 4 in *.
  change (2 ^ (- (-54))) with 18014398509481984 in *.
  change (2 ^ (- (-53))) with 9007199254740992 in *.
  clearbody c t b l r. lia.
Qed.

Lemma v_end_points_witness :
  (0 <= v_top_y 48 <= v_bottom_y 48 /\ v_bottom_y 48 <= 48 /\
   0 <= v_left_x 48 <= v_center_x 48 /\
   v_center_x 48 <= v_right_x 48 <= 48) /\
  (7 <= 48 ->
   v_top_y 48 < v_bottom_y 48 < 48 /\
   v_left_x 48 < v_center_x 48 < v_right_x 48 /\ v_right_x 48 < 48).
Proof. apply (v_end_points 48). lia. Defined.

(** ** The driver on any file system *)

Lemma main_has_five_icon_trace (R : Rasterizer) :
  exists i48 i72 i96 i144 i192,
    main R = (five_icon_trace i48 i72 i96 i144 i192, Ok tt) /\
    (create_voxmatrix_icon R 48 = Ok i48 /\ width i48 = 48 /\ height i48 = 48) /\
    (create_voxmatrix_icon R 72 = Ok i72 /\ width i72 = 72 /\ height i72 = 72) /\
    (create_voxmatrix_icon R 96 = Ok i96 /\ width i96 = 96 /\ height i96 = 96) /\
    (create_voxmatrix_icon R 144 = Ok i144 /\ width i144 = 144 /\ height i144 = 144) /\
    (create_voxmatrix_icon R 192 = Ok i192 /\ width i192 = 192 /\ height i192 = 192).
Proof.
  destruct (create_voxmatrix_icon_size R 48 ltac:(lia)) as (i48 & H48 & Hw48 & Hh48 & _).
  destruct (create_voxmatrix_icon_size R 72 ltac:(lia)) as (i72 & H72 & Hw72 & Hh72 & _).
  destruct (create_voxmatrix_icon_size R 96 ltac:(lia)) as (i96 & H96 & Hw96 & Hh96 & _).
  destruct (create_voxmatrix_icon_size R 144 ltac:(lia)) as (i144 & H144 & Hw144 & Hh144 & _).
  destruct (create_voxmatrix_icon_size R 192 ltac:(lia)) as (i192 & H192 & Hw192 & Hh192 & _).
  exists i48, i72, i96, i144, i192.
  split; [exact (main_trace R i48 i72 i96 i144 i192 H48 H72 H96 H144 H192)|].
  split; [exact (conj H48 (conj Hw48 Hh48))|].
  split; [exact (conj H72 (conj Hw72 Hh72))|].
  split; [exact (conj H96 (conj Hw96 Hh96))|].
  split; [exact (conj H144 (conj Hw144 Hh144))|].
  exact (conj H192 (conj Hw192 Hh192)).
Qed.

(** *** Making directories and saving *)

Lemma dirname_shorter p d :
  dirname p = Some d -> (String.length d < String.length p)%nat.
Proof.
  revert d. induction p as [|c p IH]; intros d; cbn [dirname]; [done|].
  destruct (dirname p) as [d'|].
  - intros [= <-]. specialize (IH d' eq_refl). cbn [String.length]. lia.
  - destruct (Ascii.eqb c slash); [|done]. intros [= <-]. cbn [String.length]. lia.
Qed.

(** The fuel of [parents] is enough: more of it gives the same list. *)
Lemma parents_fuel n p : (String.length p <= n)%nat -> parents_ n p = parents p.
Proof.
  unfold parents.
  assert (H : forall n m q, (String.length q <= n)%nat -> (String.length q <= m)%nat ->
                parents_ n q = parents_ m q).
  { clear. induction n as [|n IH]; intros m q Hn Hm.
    - destruct q; [by destruct m | cbn [String.length] in Hn; lia].
    - destruct m as [|m]; [destruct q; [done | cbn [String.length] in Hm; lia]|].
      cbn [parents_]. destruct (dirname q) as [[|c d]|] eqn:Hd; [done| |done].
      apply dirname_shorter in Hd. f_equal. apply IH; lia. }
  intros Hn. by apply H.
Qed.

Lemma is_file_dirs ds ds' fl c : is_file (MkFS ds fl) c = is_file (MkFS ds' fl) c.
Proof. reflexivity. Qed.

Lemma makedirs_down_one c ok fs :
  makedirs_down [c] ok fs =
    if is_file fs c then Raise FileExistsError
    else if is_dir fs c then (if ok then Ok fs else Raise FileExistsError)
    else Ok (MkFS ({[c]} ∪ dirs fs) (files fs)).
Proof. reflexivity. Qed.

Lemma makedirs_down_cons c c' rest ok fs :
  makedirs_down (c :: c' :: rest) ok fs =
    if is_file fs c then Raise NotADirectoryError
    else makedirs_down (c' :: rest) ok
           (if is_dir fs c then fs else MkFS ({[c]} ∪ dirs fs) (files fs)).
Proof. reflexivity. Qed.

Lemma makedirs_down_ok chain fs :
  chain <> [] -> Forall (fun c => is_file fs c = false) chain ->
  makedirs_down chain true fs = Ok (MkFS (list_to_set chain ∪ dirs fs) (files fs)).
Proof.
  revert fs. induction chain as [|c rest IH]; intros [ds fl] Hne HF; [done|].
  apply Forall_cons in HF as [Hc HF]. destruct rest as [|c' rest].
  - rewrite makedirs_down_one, Hc. unfold is_dir. cbn [dirs files].
    case_bool_decide as Hin; do 2 f_equal; set_solver.
  - rewrite makedirs_down_cons, Hc. unfold is_dir. cbn [dirs files].
    case_bool_decide as Hin; rewrite IH by done; cbn [dirs files];
      do 2 f_equal; set_solver.
Qed.

Lemma makedirs_down_blocked chain ok fs :
  ~ Forall (fun c => is_file fs c = false) chain ->
  exists e, makedirs_down chain ok fs = Raise e.
Proof.
  revert fs. induction chain as [|c rest IH]; intros [ds fl] HF.
  - destruct HF. constructor.
  - destruct (is_file (MkFS ds fl) c) eqn:Hc.
    + destruct rest; [rewrite makedirs_down_one | rewrite makedirs_down_cons];
        rewrite Hc; eauto.
    + assert (HF' : ~ Forall (fun c => is_file (MkFS ds fl) c = false) rest).
      { intros H. apply HF. by constructor. }
      destruct rest as [|c' rest]; [destruct HF'; constructor|].
      rewrite makedirs_down_cons, Hc. destruct (is_dir (MkFS ds fl) c).
      * by apply IH.
      * apply IH. exact HF'.
Qed.

(** The last directory of the chain is a regular file. *)
Lemma makedirs_down_leaf_is_file above p ok fs :
  Forall (fun c => is_file fs c = false) above -> is_file fs p = true ->
  makedirs_down (above ++ [p]) ok fs = Raise FileExistsError.
Proof.
  revert fs. induction above as [|c rest IH]; intros [ds fl] HF Hp.
  - cbn [app]. by rewrite makedirs_down_one, Hp.
  - apply Forall_cons in HF as [Hc HF].
    change ((c :: rest) ++ [p]) with (c :: (rest ++ [p])).
    destruct (rest ++ [p]) as [|c' tl] eqn:Heq; [by destruct rest|].
    rewrite makedirs_down_cons, Hc.
    destruct (is_dir (MkFS ds fl) c); by apply IH.
Qed.

Lemma walk_ok chain fs :
  Forall (fun c => is_file fs c = false /\ c ∈ dirs fs) chain -> walk chain fs = Ok tt.
Proof.
  induction 1 as [|c rest [Hf Hd] _ IH]; [reflexivity|].
  cbn [walk]. rewrite Hf. unfold is_dir. by rewrite bool_decide_eq_true_2.
Qed.

(** *** The paths of the table *)

Lemma mipmap_chain_leaf label :
  mipmap_chain label <> [] /\ icon_dir label ∈ mipmap_chain label.
Proof.
  unfold mipmap_chain. split; [by destruct (reverse _)|].
  apply elem_of_app. right. by apply list_elem_of_singleton.
Qed.

Lemma parents_icon_file label :
  label ∈ ICON_SIZES.*1 -> reverse (parents (icon_file label)) = mipmap_chain label.
Proof.
  intros Hl. cbn in Hl.
  repeat (apply elem_of_cons in Hl as [->|Hl]); [..|by apply elem_of_nil in Hl];
    vm_compute; reflexivity.
Qed.

Lemma icon_file_not_in_chain l l' :
  l ∈ ICON_SIZES.*1 -> l' ∈ ICON_SIZES.*1 -> icon_file l ∉ mipmap_chain l'.
Proof.
  intros Hl Hl'. cbn in Hl, Hl'.
  repeat (apply elem_of_cons in Hl as [->|Hl]); [..|by apply elem_of_nil in Hl];
    (repeat (apply elem_of_cons in Hl' as [->|Hl']); [..|by apply elem_of_nil in Hl']);
    by_computation.
Qed.

Lemma icon_dir_not_in_other_chain l l' :
  l ∈ ICON_SIZES.*1 -> l' ∈ ICON_SIZES.*1 -> l <> l' -> icon_dir l ∉ mipmap_chain l'.
Proof.
  intros Hl Hl' Hne. cbn in Hl, Hl'.
  repeat (apply elem_of_cons in Hl as [->|Hl]); [..|by apply elem_of_nil in Hl];
    (repeat (apply elem_of_cons in Hl' as [->|Hl']); [..|by apply elem_of_nil in Hl']);
    try done; by_computation.
Qed.

Lemma icon_dir_not_icon_file l l' :
  l ∈ ICON_SIZES.*1 -> l' ∈ ICON_SIZES.*1 -> icon_file l <> icon_dir l'.
Proof.
  intros Hl Hl' Heq. apply (icon_file_not_in_chain l l' Hl Hl').
  rewrite Heq. apply mipmap_chain_leaf.
Qed.

(** *** One entry of the table *)

Lemma run_entry_ok fs label img msg rest :
  label ∈ ICON_SIZES.*1 -> entry_ready fs label ->
  run (MakeDirs (icon_dir label) true :: Save (icon_file label) "PNG" img
       :: Print msg :: rest) fs
  = run rest (after_entry fs label img).
Proof.
  intros Hl [HF Hp]. unfold run. cbn [for_ exec]. unfold makedirs.
  fold (mipmap_chain label).
  rewrite makedirs_down_ok by (first [apply mipmap_chain_leaf | exact HF]).
  cbn [mbind result_bind]. unfold save. rewrite (parents_icon_file label Hl).
  rewrite walk_ok.
  - cbn [mbind result_bind]. unfold is_dir. cbn [dirs files].
    rewrite bool_decide_eq_false_2; [reflexivity|].
    rewrite elem_of_union, elem_of_list_to_set.
    intros [Hin|Hin]; [|done]. by apply (icon_file_not_in_chain label label Hl Hl).
  - apply Forall_forall. intros c Hc. split.
    + rewrite Forall_forall in HF. exact (HF c Hc).
    + cbn [dirs]. apply elem_of_union. left. by apply elem_of_list_to_set.
Qed.

Lemma run_entry_blocked fs label img msg rest :
  label ∈ ICON_SIZES.*1 -> ~ entry_ready fs label ->
  exists e,
    run (MakeDirs (icon_dir label) true :: Save (icon_file label) "PNG" img
         :: Print msg :: rest) fs = Raise e.
Proof.
  intros Hl Hnot. unfold run. cbn [for_ exec]. unfold makedirs.
  fold (mipmap_chain label).
  destruct (decide (Forall (fun c => is_file fs c = false) (mipmap_chain label)))
    as [HF|HF].
  - assert (Hp : icon_file label ∈ dirs fs).
    { destruct (decide (icon_file label ∈ dirs fs)) as [|Hp]; [done|].
      destruct Hnot. by split. }
    rewrite makedirs_down_ok by (first [apply mipmap_chain_leaf | exact HF]).
    cbn [mbind result_bind]. unfold save. rewrite (parents_icon_file label Hl).
    rewrite walk_ok.
    + cbn [mbind result_bind]. unfold is_dir. cbn [dirs files].
      rewrite bool_decide_eq_true_2 by (apply elem_of_union; by right).
      by exists IsADirectoryError.
    + apply Forall_forall. intros c Hc. split.
      * rewrite Forall_forall in HF. exact (HF c Hc).
      * cbn [dirs]. apply elem_of_union. left. by apply elem_of_list_to_set.
  - destruct (makedirs_down_blocked (mipmap_chain label) true fs HF) as [e ->].
    by exists e.
Qed.

(** An entry is ready after another one iff it was before. *)
Lemma entry_ready_after_entry fs l l' img :
  l ∈ ICON_SIZES.*1 -> l' ∈ ICON_SIZES.*1 ->
  entry_ready (after_entry fs l img) l' <-> entry_ready fs l'.
Proof.
  intros Hl Hl'. unfold entry_ready, after_entry. cbn [dirs].
  assert (Hfile : forall c, c ∈ mipmap_chain l' ->
            is_file (MkFS (list_to_set (mipmap_chain l) ∪ dirs fs)
                          (<[icon_file l := ("PNG", img)]> (files fs))) c
            = is_file fs c).
  { intros c Hc. unfold is_file. cbn [files].
    rewrite lookup_insert_ne; [reflexivity|].
    intros Heq. apply (icon_file_not_in_chain l l' Hl Hl'). by rewrite Heq. }
  assert (Hdir : icon_file l' ∈ list_to_set (mipmap_chain l) ∪ dirs fs
                 <-> icon_file l' ∈ dirs fs).
  { rewrite elem_of_union, elem_of_list_to_set. split; [|by right].
    intros [Hin|Hin]; [|done]. by destruct (icon_file_not_in_chain l' l Hl' Hl). }
  rewrite !Forall_forall, Hdir. split; intros [HF Hp]; (split; [|exact Hp]);
    intros c Hc; [rewrite <- Hfile by done | rewrite Hfile by done]; by apply HF.
Qed.

(** *** The whole run *)

Lemma table_labels : ICON_SIZES.*1 = ["mdpi"; "hdpi"; "xhdpi"; "xxhdpi"; "xxxhdpi"].
Proof. reflexivity. Qed.

Lemma in_table l : In l ["mdpi"; "hdpi"; "xhdpi"; "xxhdpi"; "xxxhdpi"] -> l ∈ ICON_SIZES.*1.
Proof. intros H. rewrite table_labels. by apply list_elem_of_In. Qed.

Lemma writable_entries fs :
  writable fs <->
  entry_ready fs "mdpi" /\ entry_ready fs "hdpi" /\ entry_ready fs "xhdpi" /\
  entry_ready fs "xxhdpi" /\ entry_ready fs "xxxhdpi".
Proof.
  unfold writable. rewrite table_labels, !Forall_cons, Forall_nil. tauto.
Qed.

(** A run either finds nothing in its way and goes through, or raises. *)
Lemma run_five_icon_trace i48 i72 i96 i144 i192 fs :
  (writable fs /\
   run (five_icon_trace i48 i72 i96 i144 i192) fs
   = Ok (after_run i48 i72 i96 i144 i192 fs))
  \/ (~ writable fs /\
      exists e, run (five_icon_trace i48 i72 i96 i144 i192) fs = Raise e).
Proof.
  assert (L1 : "mdpi" ∈ ICON_SIZES.*1) by (apply in_table; simpl; tauto).
  assert (L2 : "hdpi" ∈ ICON_SIZES.*1) by (apply in_table; simpl; tauto).
  assert (L3 : "xhdpi" ∈ ICON_SIZES.*1) by (apply in_table; simpl; tauto).
  assert (L4 : "xxhdpi" ∈ ICON_SIZES.*1) by (apply in_table; simpl; tauto).
  assert (L5 : "xxxhdpi" ∈ ICON_SIZES.*1) by (apply in_table; simpl; tauto).
  unfold five_icon_trace, after_run. rewrite run_print.
  set (s1 := after_entry fs "mdpi" i48).
  set (s2 := after_entry s1 "hdpi" i72).
  set (s3 := after_entry s2 "xhdpi" i96).
  set (s4 := after_entry s3 "xxhdpi" i144).
  assert (T2 : entry_ready s1 "hdpi" <-> entry_ready fs "hdpi")
    by (subst s1; by rewrite entry_ready_after_entry).
  assert (T3 : entry_ready s2 "xhdpi" <-> entry_ready fs "xhdpi")
    by (subst s2 s1; by rewrite !entry_ready_after_entry).
  assert (T4 : entry_ready s3 "xxhdpi" <-> entry_ready fs "xxhdpi")
    by (subst s3 s2 s1; by rewrite !entry_ready_after_entry).
  assert (T5 : entry_ready s4 "xxxhdpi" <-> entry_ready fs "xxxhdpi")
    by (subst s4 s3 s2 s1; by rewrite !entry_ready_after_entry).
  rewrite writable_entries.
  destruct (decide (entry_ready fs "mdpi")) as [R1|N1];
    [|right; split; [tauto | by apply run_entry_blocked]].
  rewrite (run_entry_ok fs "mdpi" i48 _ _ L1 R1). fold s1.
  destruct (decide (entry_ready s1 "hdpi")) as [R2|N2];
    [|right; split; [tauto | by apply run_entry_blocked]].
  rewrite (run_entry_ok s1 "hdpi" i72 _ _ L2 R2). fold s2.
  destruct (decide (entry_ready s2 "xhdpi")) as [R3|N3];
    [|right; split; [tauto | by apply run_entry_blocked]].
  rewrite (run_entry_ok s2 "xhdpi" i96 _ _ L3 R3). fold s3.
  destruct (decide (entry_ready s3 "xxhdpi")) as [R4|N4];
    [|right; split; [tauto | by apply run_entry_blocked]].
  rewrite (run_entry_ok s3 "xxhdpi" i144 _ _ L4 R4). fold s4.
  destruct (decide (entry_ready s4 "xxxhdpi")) as [R5|N5];
    [|right; split; [tauto | by apply run_entry_blocked]].
  rewrite (run_entry_ok s4 "xxxhdpi" i192 _ _ L5 R5).
  left. split; [tauto|]. rewrite !run_print. reflexivity.
Qed.

Lemma after_run_dirs i48 i72 i96 i144 i192 fs d :
  d ∈ dirs (after_run i48 i72 i96 i144 i192 fs) <-> made_by_run d \/ d ∈ dirs fs.
Proof.
  unfold after_run, after_entry. cbn [dirs].
  rewrite !elem_of_union, !elem_of_list_to_set. unfold made_by_run. split.
  - intros [H|[H|[H|[H|[H|H]]]]]; [| | | | |by right]; left.
    + exists "xxxhdpi", 192. split; [|done]. unfold ICON_SIZES. set_solver.
    + exists "xxhdpi", 144. split; [|done]. unfold ICON_SIZES. set_solver.
    + exists "xhdpi", 96. split; [|done]. unfold ICON_SIZES. set_solver.
    + exists "hdpi", 72. split; [|done]. unfold ICON_SIZES. set_solver.
    + exists "mdpi", 48. split; [|done]. unfold ICON_SIZES. set_solver.
  - intros [(label & size & Hin & Hd)|H]; [|tauto].
    unfold ICON_SIZES in Hin.
    repeat (apply elem_of_cons in Hin as [Heq|Hin]; [injection Heq as -> ->; tauto|]).
    by apply elem_of_nil in Hin.
Qed.

Lemma after_run_files i48 i72 i96 i144 i192 fs :
  files (after_run i48 i72 i96 i144 i192 fs)
  = write_icons i48 i72 i96 i144 i192 (files fs).
Proof. reflexivity. Qed.

Lemma write_icons_twice i48 i72 i96 i144 i192 fl :
  write_icons i48 i72 i96 i144 i192 (write_icons i48 i72 i96 i144 i192 fl)
  = write_icons i48 i72 i96 i144 i192 fl.
Proof.
  unfold write_icons. generalize (icon_file "mdpi") (icon_file "hdpi")
    (icon_file "xhdpi") (icon_file "xxhdpi") (icon_file "xxxhdpi").
  intros k1 k2 k3 k4 k5. apply map_eq. intros p.
  destruct (decide (p = k5)) as [->|H5]; [by rewrite !lookup_insert_eq|].
  rewrite !(lookup_insert_ne _ k5) by done.
  destruct (decide (p = k4)) as [->|H4]; [by rewrite !lookup_insert_eq|].
  rewrite !(lookup_insert_ne _ k4) by done.
  destruct (decide (p = k3)) as [->|H3]; [by rewrite !lookup_insert_eq|].
  rewrite !(lookup_insert_ne _ k3) by done.
  destruct (decide (p = k2)) as [->|H2]; [by rewrite !lookup_insert_eq|].
  rewrite !(lookup_insert_ne _ k2) by done.
  destruct (decide (p = k1)) as [->|H1]; [by rewrite !lookup_insert_eq|].
  by rewrite !lookup_insert_ne by done.
Qed.

Lemma write_icons_other i48 i72 i96 i144 i192 fl p :
  (forall label size, (label, size) ∈ ICON_SIZES -> p <> icon_file label) ->
  write_icons i48 i72 i96 i144 i192 fl !! p = fl !! p.
Proof.
  intros Hp. unfold write_icons.
  rewrite !lookup_insert_ne; [done|..]; apply not_eq_sym.
  - apply (Hp "mdpi" 48). set_solver.
  - apply (Hp "hdpi" 72). set_solver.
  - apply (Hp "xhdpi" 96). set_solver.
  - apply (Hp "xxhdpi" 144). set_solver.
  - apply (Hp "xxxhdpi" 192). set_solver.
Qed.

Lemma after_run_twice i48 i72 i96 i144 i192 fs :
  after_run i48 i72 i96 i144 i192 (after_run i48 i72 i96 i144 i192 fs)
  = after_run i48 i72 i96 i144 i192 fs.
Proof.
  pose proof (write_icons_twice i48 i72 i96 i144 i192 (files fs)) as Hf.
  unfold after_run, after_entry, write_icons in *. cbn [dirs files] in *.
  rewrite Hf. f_equal.
  generalize (list_to_set (mipmap_chain "mdpi") : gset string)
    (list_to_set (mipmap_chain "hdpi") : gset string)
    (list_to_set (mipmap_chain "xhdpi") : gset string)
    (list_to_set (mipmap_chain "xxhdpi") : gset string)
    (list_to_set (mipmap_chain "xxxhdpi") : gset string) (dirs fs).
  clear. set_solver.
Qed.

Lemma writable_after_run i48 i72 i96 i144 i192 fs :
  writable fs -> writable (after_run i48 i72 i96 i144 i192 fs).
Proof.
  unfold writable, after_run. rewrite !Forall_forall. intros H l Hl.
  assert (In5 : forall l', In l' ["mdpi"; "hdpi"; "xhdpi"; "xxhdpi"; "xxxhdpi"] ->
                  l' ∈ ICON_SIZES.*1) by exact in_table.
  rewrite !entry_ready_after_entry by (first [exact Hl | apply In5; simpl; tauto]).
  by apply H.
Qed.

Lemma writable_empty_fs : writable empty_fs.
Proof.
  unfold writable. apply Forall_forall. intros l _. split; [|set_solver].
  apply Forall_forall. intros c _. reflexivity.
Qed.

Lemma after_run_empty_fs_counts i48 i72 i96 i144 i192 :
  size (dirs (after_run i48 i72 i96 i144 i192 empty_fs)) = 15%nat /\
  size (files (after_run i48 i72 i96 i144 i192 empty_fs)) = 5%nat /\
  base_path ∈ dirs (after_run i48 i72 i96 i144 i192 empty_fs).
Proof.
  split; [vm_compute; reflexivity|]. split; [vm_compute; reflexivity|].
  by_computation.
Qed.

(** Run on a file system that holds nothing but the root, the driver ends
    normally; it has made base_path with every directory above it and the
    five directories mipmap-mdpi to mipmap-xxxhdpi under it, fifteen
    directories in all, and written exactly five files, one ic_launcher.png
    in each mipmap directory, holding the icon of the entry's size. *)
Theorem main_on_empty_directory (R : Rasterizer) :
  exists fs,
    (main R).2 = Ok tt /\ run (main R).1 empty_fs = Ok fs /\
    base_path ∈ dirs fs /\ size (dirs fs) = 15%nat /\ size (files fs) = 5%nat /\
    forall label sz, (label, sz) ∈ ICON_SIZES ->
      icon_dir label ∈ dirs fs /\
      exists img, files fs !! icon_file label = Some ("PNG", img) /\
        create_voxmatrix_icon R sz = Ok img /\ width img = sz /\ height img = sz.
Proof.
  destruct (main_has_five_icon_trace R)
    as (i48 & i72 & i96 & i144 & i192 & Hmain & H48 & H72 & H96 & H144 & H192).
  exists (after_run i48 i72 i96 i144 i192 empty_fs).
  rewrite Hmain. cbn [fst snd]. split; [reflexivity|].
  split.
  { destruct (run_five_icon_trace i48 i72 i96 i144 i192 empty_fs) as [[_ H]|[H _]];
      [exact H | destruct H; apply writable_empty_fs]. }
  destruct (after_run_empty_fs_counts i48 i72 i96 i144 i192) as (Hd & Hf & Hb).
  split; [exact Hb|]. split; [exact Hd|]. split; [exact Hf|].
  intros label sz Hin. split.
  { apply after_run_dirs. left. exists label, sz. split; [exact Hin|].
    apply mipmap_chain_leaf. }
  unfold ICON_SIZES in Hin.
  repeat (apply elem_of_cons in Hin as [Heq|Hin]; [injection Heq as -> ->|]);
    [| | | | | apply elem_of_nil in Hin; destruct Hin].
  - exists i48. split; [clear; vm_compute; reflexivity | exact H48].
  - exists i72. split; [clear; vm_compute; reflexivity | exact H72].
  - exists i96. split; [clear; vm_compute; reflexivity | exact H96].
  - exists i144. split; [clear; vm_compute; reflexivity | exact H144].
  - exists i192. split; [clear; vm_compute; reflexivity | exact H192].
Qed.

(** Running the driver again changes nothing: on the file system left by a
    run that ended normally, a second run ends normally too and leaves that
    same file system (the directories are there already, which exist_ok
    allows, and each file is overwritten with the same icon). *)
Theorem second_run_changes_nothing (R : Rasterizer) (fs fs1 : FS) :
  run (main R).1 fs = Ok fs1 -> run (main R).1 fs1 = Ok fs1.
Proof.
  destruct (main_has_five_icon_trace R)
    as (i48 & i72 & i96 & i144 & i192 & -> & _). cbn [fst].
  intros Hrun.
  destruct (run_five_icon_trace i48 i72 i96 i144 i192 fs) as [[Hw H]|[_ [e H]]];
    rewrite H in Hrun; [|discriminate Hrun].
  injection Hrun as <-.
  destruct (run_five_icon_trace i48 i72 i96 i144 i192
              (after_run i48 i72 i96 i144 i192 fs)) as [[_ H']|[Hn _]].
  - rewrite H'. by rewrite after_run_twice.
  - destruct Hn. by apply writable_after_run.
Qed.

Lemma second_run_changes_nothing_witness :
  exists fs1, run (main Ideal.rasterizer).1 empty_fs = Ok fs1 /\
    run (main Ideal.rasterizer).1 fs1 = Ok fs1.
Proof.
  destruct (main_has_five_icon_trace Ideal.rasterizer)
    as (i48 & i72 & i96 & i144 & i192 & Hmain & _).
  assert (Hrun : run (main Ideal.rasterizer).1 empty_fs
                 = Ok (after_run i48 i72 i96 i144 i192 empty_fs)).
  { rewrite Hmain. cbn [fst].
    destruct (run_five_icon_trace i48 i72 i96 i144 i192 empty_fs) as [[_ H]|[H _]];
      [exact H | destruct H; apply writable_empty_fs]. }
  eexists. split; [exact Hrun|].
  exact (second_run_changes_nothing Ideal.rasterizer _ _ Hrun).
Defined.

(** A run that ends normally touches nothing but its own outputs: every
    directory that existed still exists, every new directory is one of the
    five mipmap directories or a directory above them, and every file other
    than the five ic_launcher.png files is as it was. *)
Theorem main_touches_only_its_outputs (R : Rasterizer) (fs fs1 : FS) :
  run (main R).1 fs = Ok fs1 ->
  dirs fs ⊆ dirs fs1 /\
  (forall d, d ∈ dirs fs1 ->
     d ∈ dirs fs \/
     exists label size, (label, size) ∈ ICON_SIZES /\
       (d = icon_dir label \/ d ∈ parents (icon_dir label))) /\
  forall p, (forall label size, (label, size) ∈ ICON_SIZES -> p <> icon_file label) ->
    files fs1 !! p = files fs !! p.
Proof.
  destruct (main_has_five_icon_trace R)
    as (i48 & i72 & i96 & i144 & i192 & -> & _). cbn [fst].
  intros Hrun.
  destruct (run_five_icon_trace i48 i72 i96 i144 i192 fs) as [[Hw H]|[_ [e H]]];
    rewrite H in Hrun; [|discriminate Hrun].
  injection Hrun as <-. clear H Hw.
  split; [|split].
  - intros d Hd. apply after_run_dirs. by right.
  - intros d Hd. apply after_run_dirs in Hd as [(label & size & Hin & Hc)|Hd];
      [right|by left].
    exists label, size. split; [exact Hin|].
    unfold mipmap_chain in Hc. apply elem_of_app in Hc as [Hc|Hc].
    + right. by rewrite elem_of_reverse in Hc.
    + left. by apply list_elem_of_singleton in Hc.
  - intros p Hp. rewrite after_run_files. by apply write_icons_other.
Qed.

Lemma main_touches_only_its_outputs_witness :
  exists fs1, run (main Ideal.rasterizer).1 empty_fs = Ok fs1 /\
    forall p, (forall label size, (label, size) ∈ ICON_SIZES -> p <> icon_file label) ->
      files fs1 !! p = None.
Proof.
  destruct (main_has_five_icon_trace Ideal.rasterizer)
    as (i48 & i72 & i96 & i144 & i192 & Hmain & _).
  assert (Hrun : run (main Ideal.rasterizer).1 empty_fs
                 = Ok (after_run i48 i72 i96 i144 i192 empty_fs)).
  { rewrite Hmain. cbn [fst].
    destruct (run_five_icon_trace i48 i72 i96 i144 i192 empty_fs) as [[_ H]|[H _]];
      [exact H | destruct H; apply writable_empty_fs]. }
  eexists. split; [exact Hrun|].
  intros p Hp.
  destruct (main_touches_only_its_outputs Ideal.rasterizer _ _ Hrun) as (_ & _ & Hf).
  rewrite (Hf p Hp). reflexivity.
Defined.

(** *** A regular file where a directory is wanted *)

Lemma is_file_after_entry s l img c :
  c <> icon_file l -> is_file (after_entry s l img) c = is_file s c.
Proof.
  intros Hne. unfold is_file, after_entry. cbn [files].
  by rewrite lookup_insert_ne.
Qed.

Lemma icon_dir_not_above_itself l :
  l ∈ ICON_SIZES.*1 -> icon_dir l ∉ reverse (parents (icon_dir l)).
Proof.
  intros Hl. cbn in Hl.
  repeat (apply elem_of_cons in Hl as [->|Hl]); [..|by apply elem_of_nil in Hl];
    by_computation.
Qed.

Lemma leaf_is_file_after_entry s l img label :
  l ∈ ICON_SIZES.*1 -> label ∈ ICON_SIZES.*1 ->
  leaf_is_file s label -> leaf_is_file (after_entry s l img) label.
Proof.
  intros Hl Hlabel [HF Hp].
  assert (Hne : forall c, c ∈ mipmap_chain label -> c <> icon_file l).
  { intros c Hc Heq. apply (icon_file_not_in_chain l label Hl Hlabel). by rewrite <- Heq. }
  split.
  - rewrite Forall_forall in *. intros c Hc.
    rewrite is_file_after_entry; [by apply HF|].
    apply Hne. unfold mipmap_chain. apply elem_of_app. by left.
  - rewrite is_file_after_entry; [exact Hp|]. apply Hne, mipmap_chain_leaf.
Qed.

Lemma run_leaf_is_file s label rest :
  leaf_is_file s label ->
  run (MakeDirs (icon_dir label) true :: rest) s = Raise FileExistsError.
Proof.
  intros [HF Hp]. unfold run. cbn [for_ exec]. unfold makedirs.
  by rewrite makedirs_down_leaf_is_file.
Qed.

(** On a file system where nothing else is in the way, a regular file at
    the path of one of the five mipmap directories makes the run raise
    FileExistsError: exist_ok=True only accepts a directory that is already
    there. *)
Theorem file_in_the_way (R : Rasterizer) (fs : FS) (label : string) (size : Z)
    (f : string * Image rgba) :
  (label, size) ∈ ICON_SIZES -> writable fs ->
  run (main R).1 (MkFS (dirs fs) (<[icon_dir label := f]> (files fs)))
  = Raise FileExistsError.
Proof.
  destruct (main_has_five_icon_trace R)
    as (i48 & i72 & i96 & i144 & i192 & -> & _). cbn [fst].
  intros Hin Hw.
  assert (Hlabel : label ∈ ICON_SIZES.*1)
    by (apply list_elem_of_fmap; by exists (label, size)).
  set (fs' := MkFS (dirs fs) (<[icon_dir label := f]> (files fs))).
  assert (Hready : forall l, l ∈ ICON_SIZES.*1 -> entry_ready fs l).
  { unfold writable in Hw. rewrite Forall_forall in Hw. exact Hw. }
  assert (H0 : leaf_is_file fs' label).
  { split.
    - destruct (Hready label Hlabel) as [HF _]. rewrite Forall_forall in *.
      intros c Hc. unfold is_file, fs'. cbn [files].
      rewrite lookup_insert_ne.
      + apply HF. unfold mipmap_chain. apply elem_of_app. by left.
      + intros Heq. apply (icon_dir_not_above_itself label Hlabel).
        by rewrite <- Heq in Hc.
    - unfold is_file, fs'. cbn [files]. rewrite lookup_insert_eq.
      by apply bool_decide_eq_true_2. }
  assert (Hother : forall l, l ∈ ICON_SIZES.*1 -> l <> label -> entry_ready fs' l).
  { intros l Hl Hne. destruct (Hready l Hl) as [HF Hp]. split; [|exact Hp].
    rewrite Forall_forall in *. intros c Hc. unfold is_file, fs'. cbn [files].
    rewrite lookup_insert_ne; [by apply HF|].
    intros Heq. apply (icon_dir_not_in_other_chain label l Hlabel Hl); [done|].
    by rewrite Heq. }
  assert (L1 : "mdpi" ∈ ICON_SIZES.*1) by (apply in_table; simpl; tauto).
  assert (L2 : "hdpi" ∈ ICON_SIZES.*1) by (apply in_table; simpl; tauto).
  assert (L3 : "xhdpi" ∈ ICON_SIZES.*1) by (apply in_table; simpl; tauto).
  assert (L4 : "xxhdpi" ∈ ICON_SIZES.*1) by (apply in_table; simpl; tauto).
  clearbody fs'. clear Hw Hready.
  unfold five_icon_trace. rewrite run_print.
  unfold ICON_SIZES in Hin.
  repeat (apply elem_of_cons in Hin as [Heq|Hin]; [injection Heq as -> ->|]);
    [| | | | | apply elem_of_nil in Hin; destruct Hin].
  - by apply run_leaf_is_file.
  - rewrite run_entry_ok by (first [exact L1 | by apply Hother]).
    apply run_leaf_is_file. by apply leaf_is_file_after_entry.
  - rewrite run_entry_ok by (first [exact L1 | by apply Hother]).
    rewrite run_entry_ok
      by (first [exact L2 | rewrite !entry_ready_after_entry by done; by apply Hother]).
    apply run_leaf_is_file. do 2 (apply leaf_is_file_after_entry; [done|done|]). exact H0.
  - rewrite run_entry_ok by (first [exact L1 | by apply Hother]).
    rewrite run_entry_ok
      by (first [exact L2 | rewrite !entry_ready_after_entry by done; by apply Hother]).
    rewrite run_entry_ok
      by (first [exact L3 | rewrite !entry_ready_after_entry by done; by apply Hother]).
    apply run_leaf_is_file. do 3 (apply leaf_is_file_after_entry; [done|done|]). exact H0.
  - rewrite run_entry_ok by (first [exact L1 | by apply Hother]).
    rewrite run_entry_ok
      by (first [exact L2 | rewrite !entry_ready_after_entry by done; by apply Hother]).
    rewrite run_entry_ok
      by (first [exact L3 | rewrite !entry_ready_after_entry by done; by apply Hother]).
    rewrite run_entry_ok
      by (first [exact L4 | rewrite !entry_ready_after_entry by done; by apply Hother]).
    apply run_leaf_is_file. do 4 (apply leaf_is_file_after_entry; [done|done|]). exact H0.
Qed.

Lemma file_in_the_way_witness :
  run (main Ideal.rasterizer).1
    (MkFS (list_to_set (parents (icon_dir "hdpi")))
          (<[icon_dir "hdpi" := ("PNG", MkImage 0 0 [])]> ∅))
  = Raise FileExistsError.
Proof.
  apply (file_in_the_way Ideal.rasterizer
           (MkFS (list_to_set (parents (icon_dir "hdpi"))) ∅) "hdpi" 72).
  - unfold ICON_SIZES. right. left.
  - unfold writable. apply Forall_forall. intros l Hl. split.
    + apply Forall_forall. intros c _. reflexivity.
    + cbn [dirs]. cbn in Hl.
      repeat (apply elem_of_cons in Hl as [->|Hl]); [..|by apply elem_of_nil in Hl];
        by_computation.
Defined.
